(** * ts-data-schema: a shallow embedding of the validation runtime

    The development follows [src/schema.ts] (leaf schemas, [optional],
    [objectFunction]/[object], [Array_], [recursive], [convert],
    [predicate]) and the [or] combinator of the companion source file.

    A schema of the library is a JavaScript object [{ type, validate }];
    it is embedded as the record [SchemaBase] whose [validate] field is a
    computation in the monad [M] below, and every combinator is a Rocq
    function that builds such a record from its children, exactly as the
    source builds its object literals.

    ** Modelling boundary

    - JavaScript values are the eight [typeof] classes.  Numbers are IEEE
      binary64 floats ([PrimFloat.float]), so that [===] on numbers is the
      IEEE comparison ([NaN] differs from itself, [+0] equals [-0]).
    - Objects live in a heap and are referred to by address; [===] on
      objects compares addresses.  The library never writes to an existing
      object, and caller supplied functions are assumed not to either
      (the monad only offers allocation), so a heap cell never changes
      once allocated.
    - An object is modelled by its own enumerable data properties, an
      array by its elements (its own enumerable properties are its index
      keys).  What an object inherits or holds without enumerating it is
      given by the parameter [inherited] of the section [Runtime].
      Accessors and proxies are outside the model.
    - A caller supplied function may throw; a thrown JavaScript value is
      abstracted to the three observations [convert] makes of it, each of
      which gives a result or throws in its turn. *)

From Stdlib Require Import Floats DecimalString.
From Stdlib Require DecimalNat DecimalFacts.
From stdpp Require Import base list strings.

Local Open Scope string_scope.
Local Open Scope list_scope.

(** ** JavaScript values *)

Definition loc := nat.

(** What [Reflect.ownKeys] yields: strings and symbols. *)
Inductive key :=
| KString (s : string)
| KSymbol (id : positive).

Coercion KString : string >-> key.

#[global] Instance key_eq_dec : EqDecision key.
Proof. solve_decision. Defined.

(** [keyof any]: a property key, or the number pushed by [Array_]. *)
Inductive segment :=
| Key (k : key)
| Index (i : nat).

Inductive js_value :=
| VUndefined
| VNull
| VBoolean (b : bool)
| VNumber (x : float)
| VBigInt (z : Z)
| VString (s : string)
| VSymbol (id : positive)
| VFunction (l : loc)
| VObject (l : loc).

Inductive js_object :=
| OPlain (props : list (key * js_value))
| OArray (elems : list js_value).

Definition heap := list js_object.

Inductive js_type :=
| TUndefined | TBoolean | TNumber | TBigInt | TString | TSymbol
| TFunction | TObject.

#[global] Instance js_type_eq_dec : EqDecision js_type.
Proof. solve_decision. Defined.

(** The [typeof] operator; [typeof null] is ['object']. *)
Definition typeof (value : js_value) : js_type :=
  match value with
  | VUndefined => TUndefined
  | VNull => TObject
  | VBoolean _ => TBoolean
  | VNumber _ => TNumber
  | VBigInt _ => TBigInt
  | VString _ => TString
  | VSymbol _ => TSymbol
  | VFunction _ => TFunction
  | VObject _ => TObject
  end.

(** The [===] operator. *)
Definition strict_equal (a b : js_value) : bool :=
  match a, b with
  | VUndefined, VUndefined => true
  | VNull, VNull => true
  | VBoolean x, VBoolean y => Bool.eqb x y
  | VNumber x, VNumber y => PrimFloat.eqb x y
  | VBigInt x, VBigInt y => Z.eqb x y
  | VString x, VString y => String.eqb x y
  | VSymbol x, VSymbol y => Pos.eqb x y
  | VFunction x, VFunction y => Nat.eqb x y
  | VObject x, VObject y => Nat.eqb x y
  | _, _ => false
  end.

(** Decimal form of a non-negative integer, as [String(i)] prints it. *)
Definition number_to_string (n : nat) : string :=
  NilZero.string_of_uint (Nat.to_uint n).

(** A string key is an array index when it is the canonical decimal form
    of a natural number (the bound [2^32 - 1] on array indices is left
    out). *)
Definition array_index (k : key) : option nat :=
  match k with
  | KString s =>
      match NilZero.uint_of_string s with
      | Some u =>
          let n := Nat.of_uint u in
          if String.eqb (number_to_string n) s then Some n else None
      | None => None
      end
  | KSymbol _ => None
  end.

Fixpoint lookup_prop (k : key) (props : list (key * js_value)) : option js_value :=
  match props with
  | [] => None
  | (k', v) :: rest => if bool_decide (k' = k) then Some v else lookup_prop k rest
  end.

(** The own enumerable property [k] of [o]; arrays have no holes here. *)
Definition own_property (o : js_object) (k : key) : option js_value :=
  match o with
  | OPlain props => lookup_prop k props
  | OArray elems =>
      match array_index k with
      | Some i => elems !! i
      | None => None
      end
  end.

(** The own enumerable properties, which are what [{...o}] copies. *)
Definition own_props (o : js_object) : list (key * js_value) :=
  match o with
  | OPlain props => props
  | OArray elems => imap (fun i x => (KString (number_to_string i), x)) elems
  end.

(** The property list of [{...o, [k]: v}]: [k] keeps its place when it is
    already there and is added last otherwise. *)
Fixpoint define_prop (props : list (key * js_value)) (k : key) (v : js_value)
  : list (key * js_value) :=
  match props with
  | [] => [(k, v)]
  | (k', v') :: rest =>
      if bool_decide (k' = k) then (k, v) :: rest
      else (k', v') :: define_prop rest k v
  end.

(** [Array.prototype.toSpliced(start, deleteCount, ...items)] for
    non-negative arguments; [take] and [drop] clamp as the method does. *)
Definition toSpliced (l : list js_value) (start deleteCount : nat)
    (items : list js_value) : list js_value :=
  take start l ++ items ++ drop (start + deleteCount) l.

(** ** Caller supplied functions and what they may throw *)

(** The observations [convert] makes of a caught value [e]:
    [e instanceof Error], [e.message] and [String(e)].  Each of them runs
    code that comes with the value (a proxy trap on the walk along the
    prototype chain, a getter behind [message], [Symbol.toPrimitive],
    [toString] or [valueOf] under [String]) and either gives its result,
    [inl], or throws another value, [inr]: [String(Object.create(null))]
    throws a [TypeError].  [e.message] is read only when
    [e instanceof Error] holds, where it is a string by the type of
    [Error]. *)
#[warnings="-register-all"]
Inductive thrown := Thrown {
  instanceof_Error : bool + thrown;
  error_message : string + thrown;
  String_ : string + thrown;
}.

Inductive completion (A : Type) : Type :=
| Normal (a : A)
| Throw (e : thrown).
Arguments Normal {A} a.
Arguments Throw {A} e.

(** The argument of [predicate]: [name] is [f.name], [source] what
    [`${f}`] prints, [test] the call [f(value)] with its result coerced
    to a boolean as [if] does. *)
Record predicate_fn := {
  name : string;
  source : string;
  test : heap -> js_value -> completion bool;
}.

(** The argument of [convert]: the call returns or throws, and may have
    allocated objects, which are added at the end of the heap. *)
Record converter_fn := {
  invoke : heap -> js_value -> list js_object * completion js_value;
}.

Inductive call :=
| CallPredicate (f : predicate_fn) (arg : js_value)
| CallConverter (converter : converter_fn) (arg : js_value).

(** ** The validation monad

    A computation reads the heap and yields its completion, the objects
    it allocated (in order: the final heap is the initial one followed by
    them) and the calls it made to caller supplied functions. *)
Record outcome (A : Type) := Outcome {
  completed : completion A;
  allocated : list js_object;
  calls : list call;
}.
Arguments Outcome {A} completed allocated calls.
Arguments completed {A} o.
Arguments allocated {A} o.
Arguments calls {A} o.

Definition M (A : Type) : Type := heap -> outcome A.

Definition ret {A} (a : A) : M A := fun _ => Outcome (Normal a) [] [].

Definition bind {A B} (m : M A) (k : A -> M B) : M B := fun h =>
  let o := m h in
  match completed o with
  | Normal a =>
      let o' := k a (h ++ allocated o) in
      Outcome (completed o') (allocated o ++ allocated o') (calls o ++ calls o')
  | Throw e => Outcome (Throw e) (allocated o) (calls o)
  end.

(** An observation of a caught value: its result, or what it throws. *)
Definition observe {A} (observation : A + thrown) : M A := fun _ =>
  Outcome match observation with
          | inl a => Normal a
          | inr e => Throw e
          end [] [].

(** [try { m } catch (e) { handler e }] *)
Definition try_catch {A} (m : M A) (handler : thrown -> M A) : M A := fun h =>
  let o := m h in
  match completed o with
  | Normal a => o
  | Throw e =>
      let o' := handler e (h ++ allocated o) in
      Outcome (completed o') (allocated o ++ allocated o') (calls o ++ calls o')
  end.

Notation "x <- m ;; k" := (bind m (fun x => k))
  (at level 100, m at next level, right associativity).

(** A fresh object; its address is the next free one. *)
Definition alloc (o : js_object) : M js_value := fun h =>
  Outcome (Normal (VObject (length h))) [o] [].

(** An observation of the heap. *)
Definition read {A} (f : heap -> A) : M A := fun h =>
  Outcome (Normal (f h)) [] [].

(** The object a reference points to.  Only reached with a reference to
    an allocated object; any other argument reads as an empty object. *)
Definition deref_in (h : heap) (value : js_value) : js_object :=
  match value with
  | VObject l => default (OPlain []) (h !! l)
  | _ => OPlain []
  end.

Definition deref (value : js_value) : M js_object :=
  read (fun h => deref_in h value).

(** [Array.isArray(value)] *)
Definition isArray_in (h : heap) (value : js_value) : bool :=
  match value with
  | VObject l => match h !! l with Some (OArray _) => true | _ => false end
  | _ => false
  end.

Definition Array_isArray (value : js_value) : M bool :=
  read (fun h => isArray_in h value).

(** The elements of an array reference ([value.length] and [value[i]]). *)
Definition elements_in (h : heap) (value : js_value) : list js_value :=
  match deref_in h value with
  | OArray elems => elems
  | OPlain _ => []
  end.

Definition elements (value : js_value) : M (list js_value) :=
  read (fun h => elements_in h value).

Definition call_predicate (f : predicate_fn) (value : js_value) : M bool :=
  fun h => Outcome (test f h value) [] [CallPredicate f value].

Definition call_converter (converter : converter_fn) (value : js_value)
  : M js_value :=
  fun h => let '(new, r) := invoke converter h value in
           Outcome r new [CallConverter converter value].

(** A [for] loop whose body may [return] from the enclosing function:
    [inl r] is that early return, [inr s] the loop variables carried to
    the next iteration. *)
Fixpoint for_of {A R S} (items : list A) (body : A -> S -> M (R + S)) (s : S)
  : M (R + S) :=
  match items with
  | [] => ret (inr s)
  | x :: rest =>
      r <- body x s ;;
      match r with
      | inl result => ret (inl result)
      | inr s' => for_of rest body s'
      end
  end.

(** ** Results and schemas *)

Record ValidateError := { message : string; path : list segment }.

(** [Result<T, ValidateError>] of the package result-type-ts:
    [Result.success(value)] or [Result.failure(error)], told apart by
    [isSuccess] and [isFailure]. *)
Inductive ValidateResult :=
| Success (value : js_value)
| Failure (error : ValidateError).

Definition failure (message : string) (path : list segment) : ValidateResult :=
  Failure {| message := message; path := path |}.

(** A schema.  [validate schema value] is the call
    [schema.validate(value)], which is also all that the entry point
    [validate(schema, value)] of the library does. *)
Record SchemaBase := {
  type : string;
  validate : js_value -> M ValidateResult;
}.

(** *** Leaf schemas *)

Definition is_typeof (value : js_value) (t : js_type) : bool :=
  bool_decide (typeof value = t).

Definition boolean : SchemaBase := {|
  type := "boolean";
  validate := fun value =>
    ret (if is_typeof value TBoolean then Success value
         else failure "not a boolean" []) |}.

Definition number : SchemaBase := {|
  type := "number";
  validate := fun value =>
    ret (if is_typeof value TNumber then Success value
         else failure "not a number" []) |}.

Definition bigint : SchemaBase := {|
  type := "bigint";
  validate := fun value =>
    ret (if is_typeof value TBigInt then Success value
         else failure "not a bigint" []) |}.

Definition string_ : SchemaBase := {|
  type := "string";
  validate := fun value =>
    ret (if is_typeof value TString then Success value
         else failure "not a string" []) |}.

Definition symbol : SchemaBase := {|
  type := "symbol";
  validate := fun value =>
    ret (if is_typeof value TSymbol then Success value
         else failure "not a symbol" []) |}.

Definition unknown : SchemaBase := {|
  type := "unknown";
  validate := fun value => ret (Success value) |}.

Definition any : SchemaBase := {|
  type := "any";
  validate := fun value => ret (Success value) |}.

Definition never : SchemaBase := {|
  type := "never";
  validate := fun value =>
    ret (failure "never type does not accept any value" []) |}.

(** *** [optional] and the properties combinator *)

(** An entry of the property map given to [object]: a schema, or
    [optional(schema)], the object [{ type: 'optional', schema }] that has
    no [validate] of its own. *)
Inductive property :=
| Required (schema : SchemaBase)
| Optional (schema : SchemaBase).

Coercion Required : SchemaBase >-> property.

Definition optional (schema : SchemaBase) : property := Optional schema.

(** [properties[key].type === 'optional'] *)
Definition is_optional (p : property) : bool :=
  match p with
  | Optional _ => true
  | Required _ => false
  end.

(** [properties[key]] for a required key, [properties[key].schema] for an
    optional one. *)
Definition property_schema (p : property) : SchemaBase :=
  match p with
  | Required schema => schema
  | Optional schema => schema
  end.

(** Modelled from the spec: [partition] is imported from the package
    base-up, whose source is not in the repository.  The spec has the
    declared keys split into the optional and the required ones, each
    processed in declared order, and the source binds the result to
    [[optionalPropertyKeys, requiredPropertyKeys]]: the entries that
    satisfy the test come first, the others second, both in the order of
    the input. *)
Definition partition {A} (f : A -> bool) (l : list A) : list A * list A :=
  (List.filter f l, List.filter (fun x => negb (f x)) l).

(** A realm without any inherited property, for the examples. *)
Definition no_inherited : js_object -> key -> option js_value :=
  fun _ _ => None.

Section Runtime.

(** What [key in o] and [o[key]] find on an object besides its own
    enumerable properties: the properties it inherits through its
    prototype chain and its own non-enumerable ones (the [length] of an
    array).  They are a parameter of the development; the object spread
    does not copy them. *)
Variable inherited : js_object -> key -> option js_value.

(** [key in o] *)
Definition has_property (o : js_object) (k : key) : bool :=
  match own_property o k with
  | Some _ => true
  | None => bool_decide (is_Some (inherited o k))
  end.

(** [o[key]] *)
Definition get_property (o : js_object) (k : key) : js_value :=
  match own_property o k with
  | Some v => v
  | None => default VUndefined (inherited o k)
  end.

(** [{ ...changedValue, [key]: v }] *)
Definition spread_with (changedValue : js_value) (key : key) (v : js_value)
  : M js_value :=
  o <- deref changedValue ;;
  alloc (OPlain (define_prop (own_props o) key v)).

(** The body of the loop over [requiredPropertyKeys]; [record] is the
    object that [value] refers to. *)
Definition validate_required (record : js_object) (entry : key * property)
    (changedValue : js_value) : M (ValidateResult + js_value) :=
  let '(key, propertySchema) := entry in
  if negb (has_property record key)
  then ret (inl (failure "missing required property" [Key key]))
  else
    result <- validate (property_schema propertySchema)
                       (get_property record key) ;;
    match result with
    | Failure error =>
        ret (inl (failure (message error) (path error ++ [Key key])))
    | Success v =>
        if negb (strict_equal v (get_property record key))
        then changed <- spread_with changedValue key v ;; ret (inr changed)
        else ret (inr changedValue)
    end.

(** The body of the loop over [optionalPropertyKeys]. *)
Definition validate_optional (record : js_object) (entry : key * property)
    (changedValue : js_value) : M (ValidateResult + js_value) :=
  let '(key, propertySchema) := entry in
  if negb (has_property record key)
  then ret (inr changedValue)
  else
    result <- validate (property_schema propertySchema)
                       (get_property record key) ;;
    match result with
    | Failure error =>
        ret (inl (Failure {| message := message error;
                             path := path error ++ [Key key] |}))
    | Success v =>
        if negb (strict_equal v (get_property record key))
        then changed <- spread_with changedValue key v ;; ret (inr changed)
        else ret (inr changedValue)
    end.

(** The property map is given as the list of its entries in the order of
    [Reflect.ownKeys(properties)], so that [properties[key]] is the second
    component of the entry of [key].  Since a heap cell never changes,
    [value] is read once, into [record], and [key in value] and
    [value[key]] are taken from that reading. *)
Definition objectFunction (properties : list (key * property)) : SchemaBase := {|
  type := "properties";
  validate := fun value =>
    if negb (is_typeof value TObject) || strict_equal value VNull
    then ret (failure "not an object" [])
    else
      record <- deref value ;;
      let changedValue := value in
      let '(optionalPropertyKeys, requiredPropertyKeys) :=
        partition (fun entry => is_optional (snd entry)) properties in
      r <- for_of requiredPropertyKeys (validate_required record) changedValue ;;
      match r with
      | inl result => ret result
      | inr changedValue =>
          r <- for_of optionalPropertyKeys (validate_optional record)
                      changedValue ;;
          match r with
          | inl result => ret result
          | inr changedValue => ret (Success changedValue)
          end
      end |}.

(** The bare [object], used as a schema. *)
Definition object : SchemaBase := {|
  type := "object";
  validate := fun value =>
    ret (if is_typeof value TObject && negb (strict_equal value VNull)
         then Success value
         else failure "not an object" []) |}.

(** *** [Array_] *)

(** The body of the loop over the indices; [items] is the list of the
    elements of [value], and [changedValue] a reference, read again by
    each [toSpliced]. *)
Definition validate_element (element : SchemaBase) (items : list js_value)
    (i : nat) (changedValue : js_value) : M (ValidateResult + js_value) :=
  let value_i := default VUndefined (items !! i) in
  result <- validate element value_i ;;
  match result with
  | Failure error =>
      ret (inl (failure (message error) (Index i :: path error)))
  | Success v =>
      if negb (strict_equal v value_i)
      then current <- elements changedValue ;;
           changed <- alloc (OArray (toSpliced current i 1 [v])) ;;
           ret (inr changed)
      else ret (inr changedValue)
  end.

Definition Array_ (element : SchemaBase) : SchemaBase := {|
  type := "Array";
  validate := fun value =>
    isArray <- Array_isArray value ;;
    if negb isArray then ret (failure "not an array" [])
    else
      items <- elements value ;;
      let changedValue := value in
      r <- for_of (seq 0 (length items)) (validate_element element items)
                  changedValue ;;
      match r with
      | inl result => ret result
      | inr changedValue => ret (Success changedValue)
      end |}.

(** *** [or] *)

(** The message built when every child has failed. *)
Definition or_message (errorMessages : list string) : string :=
  "must resolve any one of the following issues: " +:+
  String.concat " "
    (imap (fun i message => "(" +:+ number_to_string (i + 1) +:+ ") " +:+ message)
          errorMessages).

(** The body of the loop over [schemas]. *)
Definition try_schema (input : js_value) (schema : SchemaBase)
    (errorMessages : list string) : M (ValidateResult + list string) :=
  result <- validate schema input ;;
  match result with
  | Success _ => ret (inl result)
  | Failure error => ret (inr (errorMessages ++ [message error]))
  end.

Definition or (schemas : list SchemaBase) : SchemaBase := {|
  type := "or";
  validate := fun input =>
    r <- for_of schemas (try_schema input) [] ;;
    match r with
    | inl result => ret result
    | inr errorMessages => ret (failure (or_message errorMessages) [])
    end |}.

(** *** [recursive], [convert], [predicate] *)

Definition recursive (lazy : unit -> SchemaBase) : SchemaBase := {|
  type := "recursive";
  validate := fun value => validate (lazy tt) value |}.

(** The [catch] block of [convert] is not itself guarded: what
    [e instanceof Error], [e.message] or [String(e)] throws is thrown by
    [validate]. *)
Definition convert (converter : converter_fn) : SchemaBase := {|
  type := "convert";
  validate := fun value =>
    try_catch
      (v <- call_converter converter value ;; ret (Success v))
      (fun e =>
         isError <- observe (instanceof_Error e) ;;
         message <- (if isError : bool then observe (error_message e)
                     else observe (String_ e)) ;;
         ret (failure message [])) |}.

Definition predicate (f : predicate_fn) : SchemaBase := {|
  type := "predicate";
  validate := fun value =>
    b <- call_predicate f value ;;
    if b then ret (Success value)
    else if negb (String.eqb (name f) "")
    then ret (failure ("predicate " +:+ name f +:+ " not met: " +:+ source f) [])
    else ret (failure ("predicate not met: " +:+ source f) []) |}.

(** * Notions used in the statements *)

(** [all_fail input h schemas messages al cl]: tried one after the other
    on [input], starting in heap [h], every schema of [schemas] fails;
    [messages] are the failure messages in trial order, [al] and [cl] the
    objects allocated and the calls made on the way. *)
Inductive all_fail (input : js_value)
  : heap -> list SchemaBase -> list string -> list js_object -> list call
    -> Prop :=
| all_fail_nil h : all_fail input h [] [] [] []
| all_fail_cons h schema rest error al cl messages al' cl' :
    validate schema input h = Outcome (Normal (Failure error)) al cl ->
    all_fail input (h ++ al) rest messages al' cl' ->
    all_fail input h (schema :: rest) (message error :: messages)
             (al ++ al') (cl ++ cl').

(** The enumeration "(i) m (i+1) m' ..." written out by recursion on the
    list of messages. *)
Fixpoint numbered (i : nat) (messages : list string) : string :=
  match messages with
  | [] => ""
  | m :: rest =>
      let item := "(" +:+ number_to_string i +:+ ") " +:+ m in
      match rest with
      | [] => item
      | _ :: _ => item +:+ " " +:+ numbered (S i) rest
      end
  end.

(** The schemas of the source that have no child and no converter: the
    leaf schemas, the bare [object] and [predicate(f)]. *)
Inductive leaf_or_predicate : SchemaBase -> Prop :=
| lp_boolean : leaf_or_predicate boolean
| lp_number : leaf_or_predicate number
| lp_bigint : leaf_or_predicate bigint
| lp_string : leaf_or_predicate string_
| lp_symbol : leaf_or_predicate symbol
| lp_unknown : leaf_or_predicate unknown
| lp_any : leaf_or_predicate any
| lp_never : leaf_or_predicate never
| lp_object : leaf_or_predicate object
| lp_predicate f : leaf_or_predicate (predicate f).

(** The property map without its optional entries. *)
Definition required_only (properties : list (key * property))
  : list (key * property) :=
  List.filter (fun entry => negb (is_optional (snd entry))) properties.

(** [schema] accepts [v] and returns a value [===] to it, in [h] and in
    every heap that extends [h]. *)
Definition accepts_unchanged (schema : SchemaBase) (v : js_value) (h : heap)
  : Prop :=
  forall h', h `prefix_of` h' ->
    exists r al cl,
      validate schema v h' = Outcome (Normal (Success r)) al cl /\
      strict_equal r v = true.

(** An entry of a property map is satisfied by the object [o] without a
    change: a required key is present, and the property of a present key
    is accepted unchanged. *)
Definition entry_unchanged (o : js_object) (h : heap) (entry : key * property)
  : Prop :=
  (is_optional (snd entry) = false -> has_property o (fst entry) = true) /\
  (has_property o (fst entry) = true ->
   accepts_unchanged (property_schema (snd entry))
                     (get_property o (fst entry)) h).

(** [schema] accepts [v] and returns [r], in [h] and in every heap that
    extends [h]. *)
Definition accepts_as (schema : SchemaBase) (v r : js_value) (h : heap)
  : Prop :=
  forall h', h `prefix_of` h' ->
    exists al cl, validate schema v h' = Outcome (Normal (Success r)) al cl.

(** What an aggregate holds at a position after its child [x] has been
    validated to [r]: [r] when [r !== x], the original [x] otherwise. *)
Definition keep_or_replace (x r : js_value) : js_value :=
  if strict_equal r x then x else r.

(** The elements of an array once its first [i] elements have been
    validated to the first [i] of [rs]. *)
Definition replaced_upto (elems rs : list js_value) (i : nat)
  : list js_value :=
  zip_with keep_or_replace (take i elems) (take i rs) ++ drop i elems.

(** Every result is [===] to the element it was computed from. *)
Definition all_same (elems rs : list js_value) : Prop :=
  Forall2 (fun x r => strict_equal r x = true) elems rs.

(** Predicates for the examples, as in the test of [or]: the anonymous
    functions [(value) => value === n]. *)
Definition is_zero : predicate_fn := {|
  name := "";
  source := "(value) => value === 0";
  test := fun _ value => Normal (strict_equal value (VNumber 0)) |}.

Definition is_one : predicate_fn := {|
  name := "";
  source := "(value) => value === 1";
  test := fun _ value => Normal (strict_equal value (VNumber 1)) |}.

Definition is_two : predicate_fn := {|
  name := "";
  source := "(value) => value === 2";
  test := fun _ value => Normal (strict_equal value (VNumber 2)) |}.

(** A converter for the examples: [x => -x] on numbers. *)
Definition negate : converter_fn := {|
  invoke := fun _ value =>
    ([], Normal match value with
                | VNumber x => VNumber (- x)
                | _ => value
                end) |}.

(** [schema] accepts [v], in [h] and in every heap that extends [h]. *)
Definition accepts (schema : SchemaBase) (v : js_value) (h : heap) : Prop :=
  forall h', h `prefix_of` h' ->
    exists r al cl, validate schema v h' = Outcome (Normal (Success r)) al cl.

(** [schema] rejects [v] with [error], in [h] and in every heap that
    extends [h]. *)
Definition rejects_with (schema : SchemaBase) (v : js_value)
    (error : ValidateError) (h : heap) : Prop :=
  forall h', h `prefix_of` h' ->
    exists al cl, validate schema v h' = Outcome (Normal (Failure error)) al cl.

(** The validation of [v] by [schema] throws [e], in [h] and in every heap
    that extends [h]. *)
Definition throws_with (schema : SchemaBase) (v : js_value) (e : thrown)
    (h : heap) : Prop :=
  forall h', h `prefix_of` h' ->
    exists al cl, validate schema v h' = Outcome (Throw e) al cl.

(** The entries of a property map in the order in which [objectFunction]
    looks at them: the required ones, then the optional ones. *)
Definition processing_order (properties : list (key * property))
  : list (key * property) :=
  required_only properties
  ++ List.filter (fun entry => is_optional (snd entry)) properties.

(** The body of either loop of [objectFunction], chosen by the entry. *)
Definition validate_entry (record : js_object) (entry : key * property)
    (changedValue : js_value) : M (ValidateResult + js_value) :=
  if is_optional (snd entry) then validate_optional record entry changedValue
  else validate_required record entry changedValue.

(** The object [o] gets past an entry of a property map: a required key
    is present, and the property of a present key is accepted. *)
Definition entry_accepted (o : js_object) (h : heap) (entry : key * property)
  : Prop :=
  (is_optional (snd entry) = false -> has_property o (fst entry) = true) /\
  (has_property o (fst entry) = true ->
   accepts (property_schema (snd entry)) (get_property o (fst entry)) h).

(** How one run of [or] ended on the children [schemas]: [pre] failed one
    after the other, then [schema] completed with [c]. *)
Definition or_stopped_at (input : js_value) (h : heap)
    (schemas : list SchemaBase) (c : completion ValidateResult)
    (al : list js_object) (cl : list call) : Prop :=
  exists pre schema post messages al1 cl1 al2 cl2,
    schemas = pre ++ schema :: post /\
    all_fail input h pre messages al1 cl1 /\
    validate schema input (h ++ al1) = Outcome c al2 cl2 /\
    al = al1 ++ al2 /\ cl = cl1 ++ cl2.

(** The leaf schemas that test the class of the value, and the bare
    [object]. *)
Definition typed_leaves : list SchemaBase :=
  [boolean; number; bigint; string_; symbol; object].

(** Whatever [schema] accepts, it returns as it is. *)
Definition returns_input (schema : SchemaBase) : Prop :=
  forall v h r, completed (validate schema v h) = Normal (Success r) -> r = v.

(** A predicate for the examples: [function boom() { throw new
    Error('boom') }]. *)
Definition boom_error : thrown := {|
  instanceof_Error := inl true;
  error_message := inl "boom";
  String_ := inl "Error: boom" |}.

Definition boom : predicate_fn := {|
  name := "boom";
  source := "function boom() { throw new Error('boom') }";
  test := fun _ _ => Throw boom_error |}.


(** A computation that completes normally in every heap. *)
Definition no_throw {A} (m : M A) : Prop :=
  forall h, exists a, completed (m h) = Normal a.

(** A schema whose validation completes normally, with a success or a
    failure, on every value and in every heap. *)
Definition never_throws (schema : SchemaBase) : Prop :=
  forall value, no_throw (validate schema value).

(** What the handler of [convert] makes of a caught value:
    [e instanceof Error ? e.message : String(e)], the message of the
    failure, or what one of the three observations throws. *)
Definition catch_message (e : thrown) : string + thrown :=
  match instanceof_Error e with
  | inl true => error_message e
  | inl false => String_ e
  | inr e' => inr e'
  end.

(** [new TypeError('Cannot convert object to primitive value')], which
    [String(e)] throws for an object that has neither [toString] nor
    [valueOf]. *)
Definition cannot_convert : thrown := {|
  instanceof_Error := inl true;
  error_message := inl "Cannot convert object to primitive value";
  String_ := inl "TypeError: Cannot convert object to primitive value" |}.

(** [Object.create(null)] as a caught value: it is no [Error], so that
    its [message] is not read, and it has no string form. *)
Definition null_prototype_object : thrown := {|
  instanceof_Error := inl false;
  error_message := inl "";
  String_ := inr cannot_convert |}.

(** The converter [() => { throw Object.create(null) }]. *)
Definition throw_null_prototype : converter_fn := {|
  invoke := fun _ _ => ([], Throw null_prototype_object) |}.

(** [schema] accepts [v] and returns a value [!==] to it, in [h] and in
    every heap that extends [h]. *)
Definition accepts_changed (schema : SchemaBase) (v : js_value) (h : heap)
  : Prop :=
  forall h', h `prefix_of` h' ->
    exists r al cl,
      validate schema v h' = Outcome (Normal (Success r)) al cl /\
      strict_equal r v = false.

(** [r] is what [schema] has returned for [v] in the course of a
    computation that started in the heap [h] and ended in [h'']: in a
    heap [h'] reached from [h], with allocations that are part of
    [h'']. *)
Definition returned_between (schema : SchemaBase) (h h'' : heap)
    (v r : js_value) : Prop :=
  exists h' al cl,
    h `prefix_of` h' /\
    validate schema v h' = Outcome (Normal (Success r)) al cl /\
    (h' ++ al) `prefix_of` h''.
(** * Running computations *)

(** Closes [h `prefix_of` (h ++ ..) ++ ..]. *)
Ltac extends := repeat apply prefix_app_r; reflexivity.

Lemma bind_normal {A B} (m : M A) (k : A -> M B) h a al cl c al' cl' :
  m h = Outcome (Normal a) al cl ->
  k a (h ++ al) = Outcome c al' cl' ->
  bind m k h = Outcome c (al ++ al') (cl ++ cl').
Proof. intros Hm Hk. unfold bind. rewrite Hm. cbn. by rewrite Hk. Qed.

Lemma bind_normal_pure {A B} (m : M A) (k : A -> M B) h a al cl c :
  m h = Outcome (Normal a) al cl ->
  k a (h ++ al) = Outcome c [] [] ->
  bind m k h = Outcome c al cl.
Proof.
  intros Hm Hk. unfold bind. rewrite Hm. cbn. rewrite Hk. cbn.
  by rewrite !app_nil_r.
Qed.

Lemma bind_throw {A B} (m : M A) (k : A -> M B) h e al cl :
  m h = Outcome (Throw e) al cl ->
  bind m k h = Outcome (Throw e) al cl.
Proof. intros Hm. unfold bind. by rewrite Hm. Qed.

Lemma bind_read {A B} (f : heap -> A) (k : A -> M B) h :
  bind (read f) k h = k (f h) h.
Proof.
  unfold bind, read. cbn. rewrite app_nil_r. by destruct (k (f h) h).
Qed.

(** * The [or] combinator *)

Lemma concat_imap_numbered (messages : list string) :
  forall i (f : nat -> string -> string),
    (forall j m, f j m = "(" +:+ number_to_string (i + j) +:+ ") " +:+ m) ->
    String.concat " " (imap f messages) = numbered i messages.
Proof.
  induction messages as [|m rest IH]; intros i f Hf; [done|].
  cbn [imap numbered String.concat].
  rewrite Hf, Nat.add_0_r.
  destruct rest as [|m' rest']; [done|].
  change (imap (f ∘ S) (m' :: rest'))
    with ((f ∘ S) 0 m' :: imap ((f ∘ S) ∘ S) rest').
  change ((f ∘ S) 0 m' :: imap ((f ∘ S) ∘ S) rest')
    with (imap (f ∘ S) (m' :: rest')).
  rewrite (IH (S i) (f ∘ S)); [done|].
  intros j m0. cbn. rewrite Hf. by rewrite Nat.add_succ_r.
Qed.

Lemma or_message_numbered messages :
  or_message messages =
    "must resolve any one of the following issues: " +:+ numbered 1 messages.
Proof.
  unfold or_message. f_equal. apply concat_imap_numbered.
  intros j m. by rewrite (Nat.add_comm j 1).
Qed.

Lemma try_schema_failure input schema h error al cl acc :
  validate schema input h = Outcome (Normal (Failure error)) al cl ->
  try_schema input schema acc h =
    Outcome (Normal (inr (acc ++ [message error]))) al cl.
Proof. intros Hs. eapply bind_normal_pure; [exact Hs | reflexivity]. Qed.

Lemma try_schema_success input schema h v al cl acc :
  validate schema input h = Outcome (Normal (Success v)) al cl ->
  try_schema input schema acc h = Outcome (Normal (inl (Success v))) al cl.
Proof. intros Hs. eapply bind_normal_pure; [exact Hs | reflexivity]. Qed.

Lemma or_loop_all_fail input h schemas messages al cl :
  all_fail input h schemas messages al cl ->
  forall acc,
    for_of schemas (try_schema input) acc h
    = Outcome (Normal (inr (acc ++ messages))) al cl.
Proof.
  induction 1 as [h|h schema rest error al cl messages al' cl' Hs _ IH];
    intros acc.
  - cbn. by rewrite app_nil_r.
  - cbn [for_of].
    eapply bind_normal; [by apply try_schema_failure|].
    cbn beta iota. rewrite IH. by rewrite <- app_assoc.
Qed.

Lemma or_loop_first_success input h pre messages al cl :
  all_fail input h pre messages al cl ->
  forall schema post v al' cl' acc,
    validate schema input (h ++ al) = Outcome (Normal (Success v)) al' cl' ->
    for_of (pre ++ schema :: post) (try_schema input) acc h
    = Outcome (Normal (inl (Success v))) (al ++ al') (cl ++ cl').
Proof.
  induction 1 as [h|h s rest error al cl messages al1 cl1 Hs _ IH];
    intros schema post v al' cl' acc Hv.
  - rewrite app_nil_r in Hv. cbn [app for_of].
    eapply bind_normal_pure; [by apply try_schema_success | reflexivity].
  - cbn [app for_of]. rewrite <- !app_assoc.
    eapply bind_normal; [by apply try_schema_failure|].
    apply IH. by rewrite <- app_assoc.
Qed.

(** C5: [or] tries its children in declared order and returns the first
    success verbatim.  When the children declared before [schema] all fail
    on [input] and [schema] then succeeds with [v], [or] returns
    [Success v], and the objects allocated and the calls made are those of
    these children only: no child declared after [schema] is run. *)
Theorem or_first_success input h pre messages al cl schema post v al' cl' :
  all_fail input h pre messages al cl ->
  validate schema input (h ++ al) = Outcome (Normal (Success v)) al' cl' ->
  validate (or (pre ++ schema :: post)) input h =
    Outcome (Normal (Success v)) (al ++ al') (cl ++ cl').
Proof.
  intros Hpre Hv. cbn [validate or].
  eapply bind_normal_pure; [by eapply or_loop_first_success | reflexivity].
Qed.

(** [or(predicate(is_zero), predicate(is_one), predicate(is_two))] on
    [1]: the second child succeeds and the third is never called. *)
Lemma or_first_success_witness :
  all_fail (VNumber 1) [] [predicate is_zero]
           ["predicate not met: (value) => value === 0"]
           [] [CallPredicate is_zero (VNumber 1)] /\
  validate (predicate is_one) (VNumber 1) ([] ++ []) =
    Outcome (Normal (Success (VNumber 1))) []
            [CallPredicate is_one (VNumber 1)] /\
  validate (or ([predicate is_zero] ++ predicate is_one :: [predicate is_two]))
           (VNumber 1) [] =
    Outcome (Normal (Success (VNumber 1))) []
            [CallPredicate is_zero (VNumber 1);
             CallPredicate is_one (VNumber 1)].
Proof.
  assert (H : all_fail (VNumber 1) [] [predicate is_zero]
                ["predicate not met: (value) => value === 0"]
                [] [CallPredicate is_zero (VNumber 1)]).
  { apply (all_fail_cons _ [] (predicate is_zero) []
             {| message := "predicate not met: (value) => value === 0";
                path := [] |}
             [] [CallPredicate is_zero (VNumber 1)] [] [] []);
      [reflexivity | apply all_fail_nil]. }
  split; [exact H|]. split; [reflexivity|].
  exact (or_first_success (VNumber 1) [] [predicate is_zero] _ [] _
           (predicate is_one) [predicate is_two] (VNumber 1) [] _ H eq_refl).
Defined.

(** C6: when every child of [or] fails, [or] returns one failure with an
    empty path whose message is "must resolve any one of the following
    issues: " followed by the children's messages, numbered from 1 in
    trial order and separated by a space. *)
Theorem or_all_fail input h schemas messages al cl :
  all_fail input h schemas messages al cl ->
  validate (or schemas) input h =
    Outcome (Normal (Failure {|
      message := "must resolve any one of the following issues: "
                 +:+ numbered 1 messages;
      path := [] |})) al cl.
Proof.
  intros Hall. cbn [validate or].
  eapply bind_normal_pure; [by eapply or_loop_all_fail|].
  cbn. unfold failure. by rewrite or_message_numbered.
Qed.

Lemma or_all_fail_witness :
  all_fail (VBoolean true) [] [number; string_]
           ["not a number"; "not a string"] [] [] /\
  validate (or [number; string_]) (VBoolean true) [] =
    Outcome (Normal (Failure {|
      message := "must resolve any one of the following issues: (1) not a number (2) not a string";
      path := [] |})) [] [].
Proof.
  assert (H : all_fail (VBoolean true) [] [number; string_]
                ["not a number"; "not a string"] [] []).
  { apply (all_fail_cons _ [] number [string_]
             {| message := "not a number"; path := [] |} [] []
             ["not a string"] [] []); [reflexivity|].
    apply (all_fail_cons _ [] string_ []
             {| message := "not a string"; path := [] |} [] [] [] [] []);
      [reflexivity | apply all_fail_nil]. }
  split; [exact H|].
  exact (or_all_fail (VBoolean true) [] [number; string_] _ [] [] H).
Defined.

(** C10: [or()] fails on every input, with an empty path and the bare
    prefix as its message. *)
Theorem or_empty_fails input h :
  validate (or []) input h =
    Outcome (Normal (Failure {|
               message := "must resolve any one of the following issues: ";
               path := [] |})) [] [].
Proof. reflexivity. Qed.

(** * [convert] and [predicate] *)

Lemma convert_run converter input h :
  validate (convert converter) input h =
    match invoke converter h input with
    | (new, Normal v) =>
        Outcome (Normal (Success v)) new [CallConverter converter input]
    | (new, Throw e) =>
        Outcome match catch_message e with
                | inl text => Normal (Failure {| message := text; path := [] |})
                | inr e' => Throw e'
                end
                new [CallConverter converter input]
    end.
Proof.
  cbn. unfold try_catch, bind, call_converter, observe, catch_message.
  destruct (invoke converter h input) as [new [v|e]]; cbn.
  - by rewrite !app_nil_r.
  - destruct (instanceof_Error e) as [[|]|e']; cbn;
      [destruct (error_message e) | destruct (String_ e) | ]; cbn;
      by rewrite ?app_nil_r.
Qed.

(** What [convert] does catch: a thrown value whose message, or string
    form, can be taken becomes a failure with that message and an empty
    path. *)
Lemma convert_captures_described converter input h new e text :
  invoke converter h input = (new, Throw e) ->
  catch_message e = inl text ->
  validate (convert converter) input h
  = Outcome (Normal (Failure {| message := text; path := [] |}))
            new [CallConverter converter input].
Proof. intros Hcall Htext. by rewrite convert_run, Hcall, Htext. Qed.

(** C7: the handler of [convert] is not guarded.  When the converter
    throws [Object.create(null)], [String(e)] throws a [TypeError] inside
    the [catch] block, and the validation throws that error where the
    claim has it return a failure. *)
Theorem convert_handler_throws input h :
  validate (convert throw_null_prototype) input h
  = Outcome (Throw cannot_convert) []
            [CallConverter throw_null_prototype input].
Proof. reflexivity. Qed.

Lemma predicate_run f value h :
  validate (predicate f) value h =
    Outcome
      match test f h value with
      | Normal true => Normal (Success value)
      | Normal false =>
          Normal (Failure {|
            message :=
              if String.eqb (name f) ""
              then "predicate not met: " +:+ source f
              else "predicate " +:+ name f +:+ " not met: " +:+ source f;
            path := [] |})
      | Throw e => Throw e
      end
      [] [CallPredicate f value].
Proof.
  cbn. unfold bind, call_predicate. cbn.
  destruct (test f h value) as [[|]|e]; cbn; try done.
  by destruct (String.eqb (name f) "").
Qed.

(** C8: one validation with [predicate(f)] makes exactly one call, [f]
    applied to the value, whether the test holds, fails or throws; the
    failure message is put together from [f]'s name and text alone. *)
Theorem predicate_calls_once f value h :
  calls (validate (predicate f) value h) = [CallPredicate f value] /\
  completed (validate (predicate f) value h) =
    match test f h value with
    | Normal true => Normal (Success value)
    | Normal false =>
        Normal (Failure {|
          message :=
            if String.eqb (name f) ""
            then "predicate not met: " +:+ source f
            else "predicate " +:+ name f +:+ " not met: " +:+ source f;
          path := [] |})
    | Throw e => Throw e
    end.
Proof. by rewrite predicate_run. Qed.

(** * Leaf schemas *)

(** C3: a leaf schema, the bare [object] or [predicate(f)] that accepts a
    value returns that very value, and allocates nothing. *)
Theorem leaf_returns_input schema value h r :
  leaf_or_predicate schema ->
  completed (validate schema value h) = Normal (Success r) ->
  r = value /\ allocated (validate schema value h) = [].
Proof.
  intros [| | | | | | | | |f]; try (cbn; intros H; split; [|done]).
  - by destruct (is_typeof value TBoolean); inversion H.
  - by destruct (is_typeof value TNumber); inversion H.
  - by destruct (is_typeof value TBigInt); inversion H.
  - by destruct (is_typeof value TString); inversion H.
  - by destruct (is_typeof value TSymbol); inversion H.
  - by inversion H.
  - by inversion H.
  - by inversion H.
  - by destruct (is_typeof value TObject && negb (strict_equal value VNull));
      inversion H.
  - rewrite predicate_run. cbn. intros H. split; [|done].
    destruct (test f h value) as [[|]|e]; by inversion H.
Qed.

Lemma leaf_returns_input_witness :
  leaf_or_predicate number /\
  completed (validate number (VNumber nan) []) = Normal (Success (VNumber nan)) /\
  VNumber nan = VNumber nan /\
  allocated (validate number (VNumber nan) []) = [].
Proof.
  split; [apply lp_number|]. split; [reflexivity|].
  exact (leaf_returns_input number (VNumber nan) [] (VNumber nan)
           lp_number eq_refl).
Defined.

(** * The properties combinator and [Array_] *)

Lemma objectFunction_run properties value h :
  negb (is_typeof value TObject) || strict_equal value VNull = false ->
  validate (objectFunction properties) value h =
    (r <- for_of (required_only properties)
                 (validate_required (deref_in h value)) value ;;
     match r with
     | inl result => ret result
     | inr changedValue =>
         r <- for_of (List.filter (fun entry => is_optional (snd entry))
                                  properties)
                     (validate_optional (deref_in h value)) changedValue ;;
         match r with
         | inl result => ret result
         | inr changedValue => ret (Success changedValue)
         end
     end) h.
Proof.
  intros Hguard. cbn [validate objectFunction]. rewrite Hguard.
  unfold deref. by rewrite bind_read.
Qed.

Lemma required_only_idemp properties :
  required_only (required_only properties) = required_only properties.
Proof.
  unfold required_only. induction properties as [|[k p] rest IH]; [done|].
  cbn. destruct (is_optional p) eqn:E; cbn; [done|]. by rewrite E, IH.
Qed.

Lemma required_only_no_optional properties :
  List.filter (fun entry : key * property => is_optional (snd entry))
              (required_only properties) = [].
Proof.
  unfold required_only. induction properties as [|[k p] rest IH]; [done|].
  cbn. destruct (is_optional p) eqn:E; cbn; [done|]. by rewrite E.
Qed.

(** C2: the required keys are all checked before any optional key.  If
    the schema reduced to its required properties fails on a value, the
    whole schema returns that same failure, with the same allocations and
    calls, whatever its optional properties are and wherever they are
    declared; so a missing required property is reported even when an
    optional property that is present is invalid. *)
Theorem required_before_optional properties value h error :
  completed (validate (objectFunction (required_only properties)) value h)
    = Normal (Failure error) ->
  validate (objectFunction properties) value h
    = validate (objectFunction (required_only properties)) value h.
Proof.
  destruct (negb (is_typeof value TObject) || strict_equal value VNull)
    eqn:Hguard.
  { intros _. cbn [validate objectFunction]. by rewrite Hguard. }
  rewrite !objectFunction_run by done.
  rewrite required_only_idemp, required_only_no_optional.
  destruct (for_of (required_only properties)
              (validate_required (deref_in h value)) value h)
    as [[[result|changedValue]|e] al cl] eqn:Hloop.
  - intros _.
    by rewrite !(bind_normal_pure _ _ _ _ _ _ (Normal result) Hloop).
  - rewrite (bind_normal_pure _ _ _ _ _ _ (Normal (Success changedValue)) Hloop)
      by done.
    discriminate.
  - intros _. by rewrite !(bind_throw _ _ _ _ _ _ Hloop).
Qed.

(** The general form of the particular case: when the only required key
    is missing, that is the failure returned, and no child is run. *)
Lemma missing_required_reported properties l o h key schema :
  h !! l = Some o ->
  required_only properties = [(key, Required schema)] ->
  has_property o key = false ->
  validate (objectFunction properties) (VObject l) h
  = Outcome (Normal (Failure {| message := "missing required property";
                                path := [Key key] |})) [] [].
Proof.
  intros Hl Hreq Hmissing. rewrite objectFunction_run by done.
  assert (Hrecord : deref_in h (VObject l) = o) by (cbn; by rewrite Hl).
  rewrite Hreq, Hrecord. cbn [for_of validate_required].
  rewrite Hmissing. reflexivity.
Qed.

(** ** Failure paths *)

(** The properties combinator puts its key after the path of the child's
    error ... *)
Lemma validate_required_failure record key p changedValue h error al cl :
  has_property record key = true ->
  validate (property_schema p) (get_property record key) h
  = Outcome (Normal (Failure error)) al cl ->
  validate_required record (key, p) changedValue h
  = Outcome (Normal (inl (Failure {| message := message error;
                                     path := path error ++ [Key key] |})))
            al cl.
Proof.
  intros Hin Hrun. unfold validate_required. rewrite Hin. cbn [negb].
  eapply bind_normal_pure; [exact Hrun | reflexivity].
Qed.

Lemma validate_optional_failure record key p changedValue h error al cl :
  has_property record key = true ->
  validate (property_schema p) (get_property record key) h
  = Outcome (Normal (Failure error)) al cl ->
  validate_optional record (key, p) changedValue h
  = Outcome (Normal (inl (Failure {| message := message error;
                                     path := path error ++ [Key key] |})))
            al cl.
Proof.
  intros Hin Hrun. unfold validate_optional. rewrite Hin. cbn [negb].
  eapply bind_normal_pure; [exact Hrun | reflexivity].
Qed.

(** ... whereas [Array_] puts its index before it. *)
Lemma validate_element_failure element items i changedValue h error al cl :
  validate element (default VUndefined (items !! i)) h
  = Outcome (Normal (Failure error)) al cl ->
  validate_element element items i changedValue h
  = Outcome (Normal (inl (Failure {| message := message error;
                                     path := Index i :: path error |})))
            al cl.
Proof.
  intros Hrun. unfold validate_element. cbv zeta.
  eapply bind_normal_pure; [exact Hrun | reflexivity].
Qed.

(** C1: on [object({a: Array_(number)})] and [{a: [1, "x"]}] the failure
    path is [[1, "a"]]: [Array_] puts the index before the child's path,
    the properties combinator puts the key after it. *)
Theorem object_Array_failure_path :
  validate (objectFunction [("a" : key, Required (Array_ number))])
           (VObject 1)
           [OArray [VNumber 1; VString "x"]; OPlain [("a" : key, VObject 0)]]
  = Outcome (Normal (Failure {| message := "not a number";
                                path := [Index 1; Key "a"] |})) [] [].
Proof. reflexivity. Qed.

(** ** Aggregates whose children come back unchanged *)

Lemma validate_required_unchanged record h h' key p changedValue :
  has_property record key = true ->
  accepts_unchanged (property_schema p) (get_property record key) h ->
  h `prefix_of` h' ->
  exists al cl,
    validate_required record (key, p) changedValue h'
    = Outcome (Normal (inr changedValue)) al cl.
Proof.
  intros Hin Hacc Hpre. destruct (Hacc h' Hpre) as (r & al & cl & Hr & Heq).
  exists al, cl. unfold validate_required. rewrite Hin. cbn [negb].
  eapply bind_normal_pure; [exact Hr|]. cbn beta iota. by rewrite Heq.
Qed.

Lemma validate_optional_unchanged record h h' key p changedValue :
  (has_property record key = true ->
   accepts_unchanged (property_schema p) (get_property record key) h) ->
  h `prefix_of` h' ->
  exists al cl,
    validate_optional record (key, p) changedValue h'
    = Outcome (Normal (inr changedValue)) al cl.
Proof.
  intros Hacc Hpre. unfold validate_optional.
  destruct (has_property record key) eqn:Hin; cbn [negb].
  - destruct (Hacc eq_refl h' Hpre) as (r & al & cl & Hr & Heq).
    exists al, cl.
    eapply bind_normal_pure; [exact Hr|]. cbn beta iota. by rewrite Heq.
  - by exists [], [].
Qed.

Lemma for_of_unchanged {A} (body : A -> js_value -> M (ValidateResult + js_value))
    h (items : list A) (changedValue : js_value) :
  (forall x h', x ∈ items -> h `prefix_of` h' ->
     exists al cl, body x changedValue h'
                   = Outcome (Normal (inr changedValue)) al cl) ->
  forall h', h `prefix_of` h' ->
    exists al cl, for_of items body changedValue h'
                  = Outcome (Normal (inr changedValue)) al cl.
Proof.
  induction items as [|x rest IH]; intros Hbody h' Hpre.
  - by exists [], [].
  - destruct (Hbody x h') as (al & cl & Hx); [left | done |].
    destruct (IH (fun y h'' Hy => Hbody y h'' (list_elem_of_further _ _ _ Hy))
                 (h' ++ al)) as (al' & cl' & Hrest);
      [by apply prefix_app_r|].
    exists (al ++ al'), (cl ++ cl'). cbn [for_of].
    eapply bind_normal; [exact Hx | exact Hrest].
Qed.

Lemma required_loop_unchanged o h entries changedValue h' :
  Forall (entry_unchanged o h) entries ->
  h `prefix_of` h' ->
  exists al cl,
    for_of (required_only entries) (validate_required o) changedValue h'
    = Outcome (Normal (inr changedValue)) al cl.
Proof.
  intros Hall Hpre. rewrite Forall_forall in Hall.
  eapply for_of_unchanged; [|exact Hpre].
  intros [key p] h'' Hin Hpre'.
  apply list_elem_of_In, filter_In in Hin as [Hin Hopt].
  apply list_elem_of_In in Hin.
  destruct (Hall _ Hin) as [Hpresent Hacc]. cbn in *.
  apply negb_true_iff in Hopt.
  eapply validate_required_unchanged; eauto.
Qed.

Lemma optional_loop_unchanged o h entries changedValue h' :
  Forall (entry_unchanged o h) entries ->
  h `prefix_of` h' ->
  exists al cl,
    for_of (List.filter (fun entry => is_optional (snd entry)) entries)
           (validate_optional o) changedValue h'
    = Outcome (Normal (inr changedValue)) al cl.
Proof.
  intros Hall Hpre. rewrite Forall_forall in Hall.
  eapply for_of_unchanged; [|exact Hpre].
  intros [key p] h'' Hin Hpre'.
  apply list_elem_of_In, filter_In in Hin as [Hin _].
  apply list_elem_of_In in Hin.
  destruct (Hall _ Hin) as [_ Hacc]. cbn in *.
  eapply validate_optional_unchanged; eauto.
Qed.

(** A properties schema whose entries are all satisfied without a change
    returns the reference it was given. *)
Lemma objectFunction_same_instance properties l o h :
  h !! l = Some o ->
  Forall (entry_unchanged o h) properties ->
  exists al cl,
    validate (objectFunction properties) (VObject l) h
    = Outcome (Normal (Success (VObject l))) al cl.
Proof.
  intros Hl Hall. rewrite objectFunction_run by done.
  assert (Hrecord : deref_in h (VObject l) = o) by (cbn; by rewrite Hl).
  rewrite Hrecord.
  destruct (required_loop_unchanged o h properties (VObject l) h)
    as (al & cl & Hreq); [done..|].
  destruct (optional_loop_unchanged o h properties (VObject l) (h ++ al))
    as (al' & cl' & Hopt); [done | extends |].
  exists (al ++ al'), (cl ++ cl').
  eapply bind_normal; [exact Hreq|]. cbn beta iota.
  eapply bind_normal_pure; [exact Hopt | reflexivity].
Qed.

Lemma validate_element_unchanged element items h h' i changedValue :
  accepts_unchanged element (default VUndefined (items !! i)) h ->
  h `prefix_of` h' ->
  exists al cl,
    validate_element element items i changedValue h'
    = Outcome (Normal (inr changedValue)) al cl.
Proof.
  intros Hacc Hpre. destruct (Hacc h' Hpre) as (r & al & cl & Hr & Heq).
  exists al, cl. unfold validate_element.
  eapply bind_normal_pure; [exact Hr|]. cbn beta iota. by rewrite Heq.
Qed.

(** An [Array_] schema whose element schema accepts every element
    unchanged returns the reference it was given. *)
Lemma Array_same_instance element l elems h :
  h !! l = Some (OArray elems) ->
  Forall (fun x => accepts_unchanged element x h) elems ->
  exists al cl,
    validate (Array_ element) (VObject l) h
    = Outcome (Normal (Success (VObject l))) al cl.
Proof.
  intros Hl Hall. cbn [validate Array_].
  unfold Array_isArray, elements. rewrite bind_read.
  assert (His : isArray_in h (VObject l) = true) by (cbn; by rewrite Hl).
  rewrite His. cbn [negb]. rewrite bind_read.
  assert (Hitems : elements_in h (VObject l) = elems).
  { unfold elements_in. cbn. by rewrite Hl. }
  rewrite Hitems. rewrite Forall_lookup in Hall.
  destruct (for_of_unchanged (validate_element element elems) h
              (seq 0 (length elems)) (VObject l)) with (h' := h)
    as (al & cl & Hloop); [|done|].
  { intros i h' Hin Hpre.
    apply list_elem_of_In, in_seq in Hin as [_ Hi]. cbn in Hi.
    destruct (lookup_lt_is_Some_2 elems i Hi) as [x Hx].
    eapply validate_element_unchanged; [|done].
    rewrite Hx. cbn. by eapply Hall. }
  exists al, cl. eapply bind_normal_pure; [exact Hloop | reflexivity].
Qed.

(** C9 (as amended): the object guard lets arrays through.  For an array
    on which every required key is present and every declared key that is
    present, required or optional, is accepted with an unchanged value,
    the properties schema succeeds and returns the array itself. *)
Theorem object_accepts_array properties l elems h :
  h !! l = Some (OArray elems) ->
  Forall (entry_unchanged (OArray elems) h) properties ->
  completed (validate (objectFunction properties) (VObject l) h)
    = Normal (Success (VObject l)).
Proof.
  intros Hl Hall.
  destruct (objectFunction_same_instance properties l _ h Hl Hall)
    as (al & cl & Hrun).
  by rewrite Hrun.
Qed.

Lemma leaf_accepts_unchanged schema v h r :
  (forall h', validate schema v h' = Outcome (Normal (Success r)) [] []) ->
  strict_equal r v = true ->
  accepts_unchanged schema v h.
Proof. intros Hrun Heq h' _. by exists r, [], []. Qed.

(** For example, any array against [object({})]. *)
Lemma object_empty_accepts_array l elems h :
  h !! l = Some (OArray elems) ->
  validate (objectFunction []) (VObject l) h
  = Outcome (Normal (Success (VObject l))) [] [].
Proof. intros Hl. by rewrite objectFunction_run. Qed.


(** ** What [Array_] returns in general *)

Section Replaced.
Variables (elems rs : list js_value).
Hypothesis Hlen : length elems = length rs.

Lemma replaced_upto_all :
  replaced_upto elems rs (length elems) = zip_with keep_or_replace elems rs.
Proof.
  unfold replaced_upto.
  rewrite take_ge, take_ge, drop_ge, app_nil_r by lia. done.
Qed.

Lemma replaced_upto_S i x r :
  elems !! i = Some x -> rs !! i = Some r ->
  replaced_upto elems rs (S i) =
    zip_with keep_or_replace (take i elems) (take i rs)
    ++ keep_or_replace x r :: drop (S i) elems.
Proof.
  intros Hx Hr. unfold replaced_upto.
  rewrite (take_S_r _ _ _ Hx), (take_S_r _ _ _ Hr).
  rewrite zip_with_app, <- app_assoc; [done|].
  apply lookup_lt_Some in Hx. rewrite !length_take. lia.
Qed.

Lemma replaced_upto_same i x r :
  elems !! i = Some x -> rs !! i = Some r -> strict_equal r x = true ->
  replaced_upto elems rs (S i) = replaced_upto elems rs i.
Proof.
  intros Hx Hr Heq. rewrite (replaced_upto_S i x r Hx Hr).
  unfold replaced_upto, keep_or_replace.
  by rewrite Heq, (drop_S _ _ _ Hx).
Qed.

Lemma replaced_upto_toSpliced i x r :
  elems !! i = Some x -> rs !! i = Some r -> strict_equal r x = false ->
  toSpliced (replaced_upto elems rs i) i 1 [r] = replaced_upto elems rs (S i).
Proof.
  intros Hx Hr Hne. rewrite (replaced_upto_S i x r Hx Hr).
  unfold keep_or_replace. rewrite Hne.
  unfold toSpliced, replaced_upto.
  assert (Hz : length (zip_with keep_or_replace (take i elems) (take i rs)) = i).
  { apply lookup_lt_Some in Hx. rewrite length_zip_with, !length_take. lia. }
  rewrite take_app_le, take_ge by lia.
  rewrite drop_app_ge by lia.
  rewrite Hz, (drop_S _ _ _ Hx).
  replace (i + 1 - i) with 1 by lia. done.
Qed.

Lemma all_same_S i x r :
  elems !! i = Some x -> rs !! i = Some r ->
  all_same (take (S i) elems) (take (S i) rs) <->
  all_same (take i elems) (take i rs) /\ strict_equal r x = true.
Proof.
  intros Hx Hr. unfold all_same.
  rewrite (take_S_r _ _ _ Hx), (take_S_r _ _ _ Hr). split.
  - intros H. apply Forall2_app_inv in H as [H1 H2].
    + split; [done|]. by inversion H2.
    + apply lookup_lt_Some in Hx. rewrite !length_take. lia.
  - intros [H1 H2]. apply Forall2_app; [done|]. by repeat constructor.
Qed.

End Replaced.

Section Array_result.
Variables (element : SchemaBase) (elems rs : list js_value).
Variables (h : heap) (l : loc).
Hypothesis Hl : h !! l = Some (OArray elems).
Hypothesis Hrs : Forall2 (fun x r => accepts_as element x r h) elems rs.

Lemma results_length : length elems = length rs.
Proof. by eapply Forall2_length. Qed.

Lemma element_loop_result k : forall i h' c,
  i + k = length elems ->
  h `prefix_of` h' ->
  h' !! c = Some (OArray (replaced_upto elems rs i)) ->
  (c = l \/ length h <= c) ->
  (c = l <-> all_same (take i elems) (take i rs)) ->
  exists al cl c',
    for_of (seq i k) (validate_element element elems) (VObject c) h'
    = Outcome (Normal (inr (VObject c'))) al cl /\
    (h' ++ al) !! c' = Some (OArray (zip_with keep_or_replace elems rs)) /\
    (c' = l \/ length h <= c') /\
    (c' = l <-> all_same elems rs).
Proof.
  pose proof results_length as Hlen.
  induction k as [|k IH]; intros i h' c Hik Hpre Hc Hfresh Hsame.
  - exists [], [], c. assert (i = length elems) as -> by lia.
    rewrite replaced_upto_all in Hc by apply results_length.
    rewrite (take_ge elems), (take_ge rs) in Hsame by lia.
    rewrite app_nil_r. done.
  - assert (Hi : i < length elems) by lia.
    destruct (lookup_lt_is_Some_2 elems i Hi) as [x Hx].
    destruct (Forall2_lookup_l _ _ _ _ _ Hrs Hx) as (r & Hr & Hacc).
    destruct (Hacc h' Hpre) as (al1 & cl1 & Hrun).
    assert (Hlt : l < length h) by (by eapply lookup_lt_Some).
    destruct (strict_equal r x) eqn:Heq.
    + destruct (IH (S i) (h' ++ al1) c) as (al & cl & c' & Hloop & Hfinal);
        [lia | by apply prefix_app_r | | done | |].
      { rewrite (replaced_upto_same _ _ results_length i x r) by done.
        by apply lookup_app_l_Some. }
      { rewrite (all_same_S _ _ results_length i x r) by done. tauto. }
      exists (al1 ++ al), (cl1 ++ cl), c'. rewrite app_assoc.
      split; [|done]. cbn [seq for_of].
      eapply bind_normal.
      { unfold validate_element. cbv zeta. rewrite Hx. cbn [from_option id].
        eapply bind_normal_pure; [exact Hrun|].
        cbn beta iota. by rewrite Heq. }
      exact Hloop.
    + set (new := OArray (replaced_upto elems rs (S i))).
      destruct (IH (S i) ((h' ++ al1) ++ [new]) (length (h' ++ al1)))
        as (al & cl & c' & Hloop & Hfinal).
      * lia.
      * by do 2 apply prefix_app_r.
      * by apply list_lookup_middle.
      * right. apply prefix_length in Hpre. rewrite length_app. lia.
      * rewrite (all_same_S _ _ results_length i x r) by done.
        apply prefix_length in Hpre. rewrite length_app.
        split; [lia | intros [_ ?]; congruence].
      * exists ((al1 ++ [new]) ++ al), (cl1 ++ cl), c'.
        rewrite <- !app_assoc in Hfinal. rewrite <- !app_assoc.
        split; [|done]. cbn [seq for_of]. rewrite (app_assoc al1).
        eapply bind_normal.
        { unfold validate_element. cbv zeta. rewrite Hx. cbn [from_option id].
          rewrite <- (app_nil_r cl1).
          eapply bind_normal; [exact Hrun|]. cbn beta iota. rewrite Heq.
          cbn [negb]. unfold elements. rewrite bind_read.
          assert (Hcur : elements_in (h' ++ al1) (VObject c)
                         = replaced_upto elems rs i).
          { unfold elements_in. cbn.
            by rewrite (lookup_app_l_Some _ _ _ _ Hc). }
          rewrite Hcur.
          rewrite (replaced_upto_toSpliced _ _ results_length i x r) by done.
          eapply bind_normal_pure; reflexivity. }
        cbn beta iota. rewrite app_assoc. exact Hloop.
Qed.

(** [Array_] returns a reference to an array in which every position
    whose result is [!==] to the element holds that result and every
    other position the original element; the reference is the one it
    was given exactly when every result is [===] to its element, and a
    new one otherwise. *)
Lemma Array_result :
  exists al cl ref,
    validate (Array_ element) (VObject l) h
    = Outcome (Normal (Success (VObject ref))) al cl /\
    (h ++ al) !! ref = Some (OArray (zip_with keep_or_replace elems rs)) /\
    (ref = l \/ length h <= ref) /\
    (ref = l <-> all_same elems rs).
Proof.
  destruct (element_loop_result (length elems) 0 h l)
    as (al & cl & ref & Hloop & Hfinal); try done.
  { by left. }
  { split; [intros _; constructor | done]. }
  exists al, cl, ref. split; [|done].
  cbn [validate Array_]. unfold Array_isArray, elements. rewrite bind_read.
  assert (His : isArray_in h (VObject l) = true) by (cbn; by rewrite Hl).
  rewrite His. cbn [negb]. rewrite bind_read.
  assert (Hitems : elements_in h (VObject l) = elems).
  { unfold elements_in. cbn. by rewrite Hl. }
  rewrite Hitems.
  eapply bind_normal_pure; [exact Hloop | reflexivity].
Qed.
End Array_result.

(** ** One property changes *)

Lemma for_of_app {A R S} (body : A -> S -> M (R + S)) l1 l2 s h s' al cl c al' cl' :
  for_of l1 body s h = Outcome (Normal (inr s')) al cl ->
  for_of l2 body s' (h ++ al) = Outcome c al' cl' ->
  for_of (l1 ++ l2) body s h = Outcome c (al ++ al') (cl ++ cl').
Proof.
  revert s h al cl.
  induction l1 as [|x l1 IH]; intros s h al cl H1 H2.
  - cbn in H1. injection H1 as <- <- <-. by rewrite app_nil_r in H2.
  - cbn [app for_of] in *. unfold bind in H1 |- *.
    destruct (body x s h) as [[[r|s1]|e] al1 cl1]; cbn in *; try discriminate.
    destruct (for_of l1 body s1 (h ++ al1)) as [c1 al2 cl2] eqn:Hrest.
    cbn in H1. injection H1 as -> <- <-.
    rewrite app_assoc in H2.
    rewrite (IH _ _ _ _ Hrest H2). cbn. by rewrite !app_assoc.
Qed.

Lemma spread_with_run l o key v h :
  h !! l = Some o ->
  spread_with (VObject l) key v h
  = Outcome (Normal (VObject (length h)))
            [OPlain (define_prop (own_props o) key v)] [].
Proof.
  intros Hl. unfold spread_with, deref. rewrite bind_read. cbn. by rewrite Hl.
Qed.

Lemma validate_required_changed record l key p h r al cl :
  has_property record key = true ->
  h !! l = Some record ->
  validate (property_schema p) (get_property record key) h
  = Outcome (Normal (Success r)) al cl ->
  strict_equal r (get_property record key) = false ->
  validate_required record (key, p) (VObject l) h
  = Outcome (Normal (inr (VObject (length (h ++ al)))))
            (al ++ [OPlain (define_prop (own_props record) key r)]) cl.
Proof.
  intros Hin Hl Hrun Hne. unfold validate_required. rewrite Hin. cbn [negb].
  rewrite <- (app_nil_r cl).
  eapply bind_normal; [exact Hrun|]. cbn beta iota. rewrite Hne. cbn [negb].
  eapply bind_normal_pure; [|reflexivity].
  apply spread_with_run. by apply lookup_app_l_Some.
Qed.

Lemma validate_optional_changed record l key p h r al cl :
  has_property record key = true ->
  h !! l = Some record ->
  validate (property_schema p) (get_property record key) h
  = Outcome (Normal (Success r)) al cl ->
  strict_equal r (get_property record key) = false ->
  validate_optional record (key, p) (VObject l) h
  = Outcome (Normal (inr (VObject (length (h ++ al)))))
            (al ++ [OPlain (define_prop (own_props record) key r)]) cl.
Proof.
  intros Hin Hl Hrun Hne. unfold validate_optional. rewrite Hin. cbn [negb].
  rewrite <- (app_nil_r cl).
  eapply bind_normal; [exact Hrun|]. cbn beta iota. rewrite Hne. cbn [negb].
  eapply bind_normal_pure; [|reflexivity].
  apply spread_with_run. by apply lookup_app_l_Some.
Qed.

(** When one declared property is validated to a value [!==] to the
    original and every other entry is satisfied without a change, the
    properties schema returns a new object: the own properties of the
    input with that one property overwritten. *)
Lemma objectFunction_one_change pre key p post l o h r :
  h !! l = Some o ->
  Forall (entry_unchanged o h) (pre ++ post) ->
  has_property o key = true ->
  accepts_as (property_schema p) (get_property o key) r h ->
  strict_equal r (get_property o key) = false ->
  exists al cl ref,
    validate (objectFunction (pre ++ (key, p) :: post)) (VObject l) h
    = Outcome (Normal (Success (VObject ref))) al cl /\
    length h <= ref /\
    (h ++ al) !! ref = Some (OPlain (define_prop (own_props o) key r)).
Proof.
  intros Hl Hall Hin Hacc Hne.
  apply Forall_app in Hall as [Hpre Hpost].
  rewrite objectFunction_run by done.
  assert (Hrecord : deref_in h (VObject l) = o) by (cbn; by rewrite Hl).
  rewrite Hrecord. unfold required_only.
  rewrite !List.filter_app. cbn [List.filter snd].
  fold (required_only pre) (required_only post).
  set (new := OPlain (define_prop (own_props o) key r)).
  destruct (is_optional p) eqn:Hopt; cbn [negb].
  - (* the changed property is optional *)
    destruct (required_loop_unchanged o h pre (VObject l) h)
      as (a1 & c1 & H1); [done..|].
    destruct (required_loop_unchanged o h post (VObject l) (h ++ a1))
      as (a2 & c2 & H2); [done | extends |].
    destruct (optional_loop_unchanged o h pre (VObject l) (h ++ a1 ++ a2))
      as (a3 & c3 & H3); [done | extends |].
    destruct (Hacc ((h ++ a1 ++ a2) ++ a3)) as (a4 & c4 & H4); [extends|].
    set (ref := length (((h ++ a1 ++ a2) ++ a3) ++ a4)).
    destruct (optional_loop_unchanged o h post (VObject ref)
                (((h ++ a1 ++ a2) ++ a3) ++ a4 ++ [new]))
      as (a5 & c5 & H5); [done | extends |].
    eexists _, _, ref. split; [|split].
    + eapply bind_normal.
      { eapply for_of_app; [exact H1 | exact H2]. }
      cbn beta iota. eapply bind_normal_pure.
      { eapply for_of_app; [exact H3|]. cbn [for_of].
        eapply bind_normal.
        { apply validate_optional_changed; try done.
          apply lookup_app_l_Some. by apply lookup_app_l_Some. }
        exact H5. }
      reflexivity.
    + unfold ref. rewrite !length_app. lia.
    + rewrite !app_assoc.
      apply lookup_app_l_Some, list_lookup_middle.
      unfold ref. rewrite !length_app. lia.
  - (* the changed property is required *)
    destruct (required_loop_unchanged o h pre (VObject l) h)
      as (a1 & c1 & H1); [done..|].
    destruct (Hacc (h ++ a1)) as (a2 & c2 & H2); [extends|].
    set (ref := length ((h ++ a1) ++ a2)).
    destruct (required_loop_unchanged o h post (VObject ref)
                ((h ++ a1) ++ a2 ++ [new]))
      as (a3 & c3 & H3); [done | extends |].
    destruct (optional_loop_unchanged o h pre (VObject ref)
                (h ++ a1 ++ (a2 ++ [new]) ++ a3))
      as (a4 & c4 & H4); [done | extends |].
    destruct (optional_loop_unchanged o h post (VObject ref)
                ((h ++ a1 ++ (a2 ++ [new]) ++ a3) ++ a4))
      as (a5 & c5 & H5); [done | extends |].
    eexists _, _, ref. split; [|split].
    + eapply bind_normal.
      { eapply for_of_app; [exact H1|]. cbn [for_of].
        eapply bind_normal.
        { apply validate_required_changed; try done.
          by apply lookup_app_l_Some. }
        exact H3. }
      cbn beta iota. eapply bind_normal_pure.
      { eapply for_of_app; [exact H4 | exact H5]. }
      reflexivity.
    + unfold ref. rewrite !length_app. lia.
    + rewrite !app_assoc.
      do 3 apply lookup_app_l_Some. apply list_lookup_middle.
      unfold ref. rewrite !length_app. lia.
Qed.

(** ** Where the test [!==] departs from "the child's value changed" *)

(** C4: an element or property that is [NaN] is accepted unchanged by
    [number], and yet [Array_(number)] and [object({a: number})] return a
    freshly allocated copy of the input, because [NaN !== NaN]. *)
Theorem NaN_child_allocates :
  validate number (VNumber nan) []
    = Outcome (Normal (Success (VNumber nan))) [] [] /\
  validate (Array_ number) (VObject 0) [OArray [VNumber nan]]
    = Outcome (Normal (Success (VObject 1))) [OArray [VNumber nan]] [] /\
  validate (objectFunction [("a" : key, Required number)]) (VObject 0)
           [OPlain [("a" : key, VNumber nan)]]
    = Outcome (Normal (Success (VObject 1)))
              [OPlain [("a" : key, VNumber nan)]] [].
Proof. repeat split; reflexivity. Qed.

(** The same test misses a change of sign of zero: [convert(x => -x)]
    turns [0] into [-0], which is [===] to [0], and [Array_] returns the
    input array, which still holds [0]. *)
Lemma negated_zero_is_dropped :
  validate (convert negate) (VNumber 0) [OArray [VNumber 0]]
    = Outcome (Normal (Success (VNumber neg_zero))) []
              [CallConverter negate (VNumber 0)] /\
  VNumber neg_zero <> VNumber 0 /\
  validate (Array_ (convert negate)) (VObject 0) [OArray [VNumber 0]]
    = Outcome (Normal (Success (VObject 0))) []
              [CallConverter negate (VNumber 0)].
Proof.
  split; [reflexivity|]. split; [|reflexivity].
  intros H.
  apply (f_equal (fun v => match v with
                           | VNumber x => PrimFloat.ltb (1 / x) 0
                           | _ => false
                           end)) in H.
  vm_compute in H. discriminate.
Qed.

(** * Further properties of the combinators *)

(** ** Loops *)

Lemma bind_ret {A B} (a : A) (k : A -> M B) h :
  bind (ret a) k h = k a h.
Proof.
  unfold bind, ret. cbn. rewrite app_nil_r. by destruct (k a h).
Qed.

Lemma bind_ext {A B} (m : M A) (k1 k2 : A -> M B) h :
  (forall a h', k1 a h' = k2 a h') ->
  bind m k1 h = bind m k2 h.
Proof.
  intros Hk. unfold bind. destruct (m h) as [[a|e] al cl]; cbn; [|done].
  by rewrite Hk.
Qed.

Lemma bind_assoc {A B C} (m : M A) (k1 : A -> M B) (k2 : B -> M C) h :
  bind (bind m k1) k2 h = bind m (fun a => bind (k1 a) k2) h.
Proof.
  unfold bind. destruct (m h) as [[a|e] al cl]; cbn; [|done].
  destruct (k1 a (h ++ al)) as [[b|e] al' cl']; cbn; [|done].
  rewrite <- !app_assoc.
  by destruct (k2 b (h ++ al ++ al')).
Qed.

Lemma for_of_ext {A R S} (body1 body2 : A -> S -> M (R + S)) items :
  (forall x s h, x ∈ items -> body1 x s h = body2 x s h) ->
  forall s h, for_of items body1 s h = for_of items body2 s h.
Proof.
  induction items as [|x rest IH]; intros Hbody s h; [done|].
  cbn [for_of]. unfold bind.
  rewrite (Hbody x s h) by left.
  destruct (body2 x s h) as [[[r|s']|e] al cl]; cbn; try done.
  rewrite IH; [done|]. intros y s0 h0 Hy. apply Hbody. by right.
Qed.

Lemma for_of_app_bind {A R S} (body : A -> S -> M (R + S)) l1 l2 :
  forall s h,
    for_of (l1 ++ l2) body s h
    = bind (for_of l1 body s)
           (fun r => match r with
                     | inl result => ret (inl result)
                     | inr s' => for_of l2 body s'
                     end) h.
Proof.
  induction l1 as [|x l1 IH]; intros s h.
  - cbn [app for_of]. by rewrite bind_ret.
  - cbn [app for_of]. rewrite bind_assoc. apply bind_ext.
    intros [result|s'] h'; [by rewrite bind_ret | apply IH].
Qed.

(** A loop whose body always goes on to the next iteration runs to its
    end. *)
Lemma for_of_progress {A R S} (body : A -> S -> M (R + S)) h (items : list A) :
  (forall x s h', x ∈ items -> h `prefix_of` h' ->
     exists s' al cl, body x s h' = Outcome (Normal (inr s')) al cl) ->
  forall s h', h `prefix_of` h' ->
    exists s' al cl, for_of items body s h' = Outcome (Normal (inr s')) al cl.
Proof.
  induction items as [|x rest IH]; intros Hbody s h' Hpre.
  - by exists s, [], [].
  - destruct (Hbody x s h') as (s1 & al & cl & Hx); [left | done |].
    destruct (IH (fun y s0 h'' Hy => Hbody y s0 h'' (list_elem_of_further _ _ _ Hy))
                 s1 (h' ++ al)) as (s2 & al' & cl' & Hrest);
      [by apply prefix_app_r|].
    exists s2, (al ++ al'), (cl ++ cl'). cbn [for_of].
    eapply bind_normal; [exact Hx | exact Hrest].
Qed.

(** ** The properties combinator as one loop *)

Lemma bind_ext_l {A B} (m1 m2 : M A) (k : A -> M B) h :
  m1 h = m2 h -> bind m1 k h = bind m2 k h.
Proof. intros Hm. unfold bind. by rewrite Hm. Qed.

Lemma validate_entry_required record properties :
  forall entry s h, entry ∈ required_only properties ->
    validate_required record entry s h = validate_entry record entry s h.
Proof.
  intros entry s h Hin. unfold validate_entry.
  apply list_elem_of_In, filter_In in Hin as [_ Hopt].
  apply negb_true_iff in Hopt. by rewrite Hopt.
Qed.

Lemma validate_entry_optional record properties :
  forall entry s h,
    entry ∈ List.filter (fun entry => is_optional (snd entry)) properties ->
    validate_optional record entry s h = validate_entry record entry s h.
Proof.
  intros entry s h Hin. unfold validate_entry.
  apply list_elem_of_In, filter_In in Hin as [_ Hopt]. by rewrite Hopt.
Qed.

(** The two loops of [objectFunction] are one loop over the entries in
    processing order. *)
Lemma objectFunction_run_order properties value h :
  negb (is_typeof value TObject) || strict_equal value VNull = false ->
  validate (objectFunction properties) value h =
    (r <- for_of (processing_order properties)
                 (validate_entry (deref_in h value)) value ;;
     match r with
     | inl result => ret result
     | inr changedValue => ret (Success changedValue)
     end) h.
Proof.
  intros Hguard. rewrite objectFunction_run by done.
  unfold processing_order.
  rewrite (bind_ext_l _ _ _ _ (for_of_app_bind _ _ _ _ _)), bind_assoc.
  rewrite (bind_ext_l _ _ _ _
             (for_of_ext _ _ _ (validate_entry_required _ properties) _ _)).
  apply bind_ext. intros [result|changedValue] h'.
  - by rewrite bind_ret.
  - apply bind_ext_l, for_of_ext, validate_entry_optional.
Qed.

Lemma deref_in_extends h h' l o :
  h !! l = Some o -> h `prefix_of` h' -> deref_in h' (VObject l) = o.
Proof.
  intros Hl [k ->]. cbn. by rewrite (lookup_app_l_Some _ _ _ _ Hl).
Qed.

Lemma spread_with_any changedValue key v h :
  exists o,
    spread_with changedValue key v h
    = Outcome (Normal (VObject (length h))) [o] [].
Proof.
  unfold spread_with, deref. rewrite bind_read. by eexists.
Qed.

Lemma validate_entry_accepted o h entry :
  entry_accepted o h entry ->
  forall s h', h `prefix_of` h' ->
    exists s' al cl,
      validate_entry o entry s h' = Outcome (Normal (inr s')) al cl.
Proof.
  destruct entry as [key p]. intros [Hpresent Hacc] s h' Hpre. cbn in *.
  unfold validate_entry, validate_optional, validate_required. cbn [snd].
  destruct (has_property o key) eqn:Hin.
  - destruct (Hacc eq_refl h' Hpre) as (r & al & cl & Hr).
    destruct (strict_equal r (get_property o key)) eqn:Heq.
    + exists s, al, cl.
      destruct (is_optional p); cbn [negb];
        (eapply bind_normal_pure; [exact Hr|]); cbn beta iota;
        by rewrite Heq.
    + destruct (spread_with_any s key r (h' ++ al)) as [new Hnew].
      exists (VObject (length (h' ++ al))), (al ++ [new]), cl.
      destruct (is_optional p); cbn [negb];
        rewrite <- (app_nil_r cl);
        (eapply bind_normal; [exact Hr|]); cbn beta iota;
        rewrite Heq; cbn [negb];
        (eapply bind_normal_pure; [exact Hnew | reflexivity]).
  - destruct (is_optional p) eqn:Hopt; [|by discriminate (Hpresent eq_refl)].
    by exists s, [], [].
Qed.

Lemma validate_entry_rejected o key p s h error al cl :
  has_property o key = true ->
  validate (property_schema p) (get_property o key) h
  = Outcome (Normal (Failure error)) al cl ->
  validate_entry o (key, p) s h
  = Outcome (Normal (inl (Failure {| message := message error;
                                     path := path error ++ [Key key] |})))
            al cl.
Proof.
  intros Hin Hrun. unfold validate_entry. cbn [snd].
  destruct (is_optional p).
  - by apply validate_optional_failure.
  - by apply validate_required_failure.
Qed.

Lemma validate_entry_throws o key p s h e al cl :
  has_property o key = true ->
  validate (property_schema p) (get_property o key) h
  = Outcome (Throw e) al cl ->
  validate_entry o (key, p) s h = Outcome (Throw e) al cl.
Proof.
  intros Hin Hrun.
  unfold validate_entry, validate_optional, validate_required. cbn [snd].
  rewrite Hin.
  destruct (is_optional p); cbn [negb]; by apply bind_throw.
Qed.

(** How a run of [objectFunction] ends when its loop stops at an entry
    with an early return or a throw. *)
Lemma objectFunction_stops properties pre entry post l o h :
  h !! l = Some o ->
  processing_order properties = pre ++ entry :: post ->
  Forall (entry_accepted o h) pre ->
  forall h', h `prefix_of` h' ->
    exists s al cl,
      h `prefix_of` h' ++ al /\
      (forall result al' cl',
         validate_entry o entry s (h' ++ al)
         = Outcome (Normal (inl result)) al' cl' ->
         validate (objectFunction properties) (VObject l) h'
         = Outcome (Normal result) (al ++ al') (cl ++ cl')) /\
      (forall e al' cl',
         validate_entry o entry s (h' ++ al) = Outcome (Throw e) al' cl' ->
         validate (objectFunction properties) (VObject l) h'
         = Outcome (Throw e) (al ++ al') (cl ++ cl')).
Proof.
  intros Hl Horder Hpre h' Hext. rewrite Forall_forall in Hpre.
  destruct (for_of_progress (validate_entry o) h pre)
    with (s := VObject l) (h' := h') as (s & al & cl & Hloop); [|done|].
  { intros x s0 h0 Hx Hh0. apply (validate_entry_accepted o h); [|done].
    by apply Hpre. }
  exists s, al, cl. split; [by apply prefix_app_r|].
  assert (Hrecord : deref_in h' (VObject l) = o) by by eapply deref_in_extends.
  split.
  - intros result al' cl' Hentry.
    rewrite objectFunction_run_order, Horder, Hrecord by done.
    eapply bind_normal_pure.
    { eapply for_of_app; [exact Hloop|]. cbn [for_of].
      eapply bind_normal_pure; [exact Hentry | reflexivity]. }
    reflexivity.
  - intros e al' cl' Hentry.
    rewrite objectFunction_run_order, Horder, Hrecord by done.
    apply bind_throw.
    eapply for_of_app; [exact Hloop|]. cbn [for_of].
    by apply bind_throw.
Qed.

Lemma objectFunction_rejects_with properties pre key p post l o h error :
  h !! l = Some o ->
  processing_order properties = pre ++ (key, p) :: post ->
  Forall (entry_accepted o h) pre ->
  has_property o key = true ->
  rejects_with (property_schema p) (get_property o key) error h ->
  rejects_with (objectFunction properties) (VObject l)
    {| message := message error; path := path error ++ [Key key] |} h.
Proof.
  intros Hl Horder Hpre Hin Hrej h' Hext.
  destruct (objectFunction_stops _ _ _ _ _ _ _ Hl Horder Hpre h' Hext)
    as (s & al & cl & Hext' & Hstop & _).
  destruct (Hrej (h' ++ al) Hext') as (al' & cl' & Hrun).
  eexists _, _. apply (Hstop _ al' cl'). by apply validate_entry_rejected.
Qed.

(** X1: in the processing order, when every entry before a declared key
    is got past (a required key is present, and the property of a present
    key is accepted) and that key is present and its property is
    rejected, the result is the failure with the child's message and the
    child's path followed by the key, whatever the entries after it
    are. *)
Theorem objectFunction_rejected_key properties pre key p post l o h error :
  h !! l = Some o ->
  processing_order properties = pre ++ (key, p) :: post ->
  Forall (entry_accepted o h) pre ->
  has_property o key = true ->
  rejects_with (property_schema p) (get_property o key) error h ->
  completed (validate (objectFunction properties) (VObject l) h)
  = Normal (Failure {| message := message error;
                       path := path error ++ [Key key] |}).
Proof.
  intros Hl Horder Hpre Hin Hrej.
  destruct (objectFunction_rejects_with _ _ _ _ _ _ _ _ _
              Hl Horder Hpre Hin Hrej h) as (al & cl & Hrun); [done|].
  by rewrite Hrun.
Qed.

(** X2: when the entries before a required key are got past and that key
    is missing, the result is the failure "missing required property" at
    that key; the keys after it are not looked at. *)
Theorem objectFunction_missing_key properties pre key p post l o h :
  h !! l = Some o ->
  processing_order properties = pre ++ (key, p) :: post ->
  Forall (entry_accepted o h) pre ->
  is_optional p = false ->
  has_property o key = false ->
  completed (validate (objectFunction properties) (VObject l) h)
  = Normal (Failure {| message := "missing required property";
                       path := [Key key] |}).
Proof.
  intros Hl Horder Hpre Hopt Hmissing.
  destruct (objectFunction_stops _ _ _ _ _ _ _ Hl Horder Hpre h)
    as (s & al & cl & _ & Hstop & _); [done|].
  rewrite (Hstop (failure "missing required property" [Key key]) [] []);
    [done|].
  unfold validate_entry, validate_required. cbn [snd].
  by rewrite Hopt, Hmissing.
Qed.

(** X3: a throw in the validation of a property is not caught by the
    properties combinator: it is what the validation of the object
    completes with. *)
Theorem objectFunction_throw_escapes properties pre key p post l o h e :
  h !! l = Some o ->
  processing_order properties = pre ++ (key, p) :: post ->
  Forall (entry_accepted o h) pre ->
  has_property o key = true ->
  throws_with (property_schema p) (get_property o key) e h ->
  completed (validate (objectFunction properties) (VObject l) h) = Throw e.
Proof.
  intros Hl Horder Hpre Hin Hthrow.
  destruct (objectFunction_stops _ _ _ _ _ _ _ Hl Horder Hpre h)
    as (s & al & cl & Hext & _ & Hstop); [done|].
  destruct (Hthrow (h ++ al) Hext) as (al' & cl' & Hrun).
  rewrite (Hstop e al' cl'); [done|]. by apply validate_entry_throws.
Qed.

(** ** [Array_]: the first element that is not accepted *)

Lemma isArray_in_extends h h' l elems :
  h !! l = Some (OArray elems) -> h `prefix_of` h' ->
  isArray_in h' (VObject l) = true /\ elements_in h' (VObject l) = elems.
Proof.
  intros Hl [k ->]. unfold elements_in. cbn.
  by rewrite (lookup_app_l_Some _ _ _ _ Hl).
Qed.

Lemma validate_element_accepted element items i h :
  accepts element (default VUndefined (items !! i)) h ->
  forall s h', h `prefix_of` h' ->
    exists s' al cl,
      validate_element element items i s h'
      = Outcome (Normal (inr s')) al cl.
Proof.
  intros Hacc s h' Hpre. destruct (Hacc h' Hpre) as (r & al & cl & Hr).
  unfold validate_element. cbv zeta.
  destruct (strict_equal r (default VUndefined (items !! i))) eqn:Heq.
  - exists s, al, cl.
    eapply bind_normal_pure; [exact Hr|]. cbn beta iota. by rewrite Heq.
  - exists (VObject (length (h' ++ al))),
           (al ++ [OArray (toSpliced (elements_in (h' ++ al) s) i 1 [r])]), cl.
    rewrite <- (app_nil_r cl).
    eapply bind_normal; [exact Hr|]. cbn beta iota. rewrite Heq. cbn [negb].
    unfold elements. rewrite bind_read.
    eapply bind_normal_pure; reflexivity.
Qed.

(** How a run of [Array_] ends when its loop stops at index [i] with an
    early return or a throw. *)
Lemma Array_stops element l elems i x h :
  h !! l = Some (OArray elems) ->
  elems !! i = Some x ->
  (forall j y, j < i -> elems !! j = Some y -> accepts element y h) ->
  forall h', h `prefix_of` h' ->
    exists s al cl,
      h `prefix_of` h' ++ al /\
      (forall result al' cl',
         validate_element element elems i s (h' ++ al)
         = Outcome (Normal (inl result)) al' cl' ->
         validate (Array_ element) (VObject l) h'
         = Outcome (Normal result) (al ++ al') (cl ++ cl')) /\
      (forall e al' cl',
         validate_element element elems i s (h' ++ al)
         = Outcome (Throw e) al' cl' ->
         validate (Array_ element) (VObject l) h'
         = Outcome (Throw e) (al ++ al') (cl ++ cl')).
Proof.
  intros Hl Hx Hbefore h' Hext.
  destruct (for_of_progress (validate_element element elems) h (seq 0 i))
    with (s := VObject l) (h' := h') as (s & al & cl & Hloop); [|done|].
  { intros j s0 h0 Hj Hh0.
    apply list_elem_of_In, in_seq in Hj as [_ Hj]. cbn in Hj.
    assert (Hlen : i < length elems) by (by eapply lookup_lt_Some).
    destruct (lookup_lt_is_Some_2 elems j) as [y Hy]; [lia|].
    apply (validate_element_accepted element elems j h); [|done].
    rewrite Hy. cbn. by eapply Hbefore. }
  exists s, al, cl. split; [by apply prefix_app_r|].
  destruct (isArray_in_extends _ _ _ _ Hl Hext) as [His Hitems].
  assert (Hseq : seq 0 (length elems)
                 = seq 0 i ++ i :: seq (S i) (length elems - S i)).
  { apply lookup_lt_Some in Hx.
    replace (length elems) with (i + S (length elems - S i)) at 1 by lia.
    by rewrite seq_app. }
  split.
  - intros result al' cl' Hentry.
    cbn [validate Array_]. unfold Array_isArray, elements.
    rewrite bind_read, His. cbn [negb]. rewrite bind_read, Hitems, Hseq.
    eapply bind_normal_pure.
    { eapply for_of_app; [exact Hloop|]. cbn [for_of].
      eapply bind_normal_pure; [exact Hentry | reflexivity]. }
    reflexivity.
  - intros e al' cl' Hentry.
    cbn [validate Array_]. unfold Array_isArray, elements.
    rewrite bind_read, His. cbn [negb]. rewrite bind_read, Hitems, Hseq.
    apply bind_throw.
    eapply for_of_app; [exact Hloop|]. cbn [for_of].
    by apply bind_throw.
Qed.

Lemma Array_rejects_with element l elems i x h error :
  h !! l = Some (OArray elems) ->
  elems !! i = Some x ->
  (forall j y, j < i -> elems !! j = Some y -> accepts element y h) ->
  rejects_with element x error h ->
  rejects_with (Array_ element) (VObject l)
    {| message := message error; path := Index i :: path error |} h.
Proof.
  intros Hl Hx Hbefore Hrej h' Hext.
  destruct (Array_stops _ _ _ _ _ _ Hl Hx Hbefore h' Hext)
    as (s & al & cl & Hext' & Hstop & _).
  destruct (Hrej (h' ++ al) Hext') as (al' & cl' & Hrun).
  eexists _, _. apply (Hstop _ al' cl').
  apply validate_element_failure. by rewrite Hx.
Qed.

(** X4: [Array_] fails at the first element that its element schema
    rejects, with the child's message and the index put before the
    child's path; the elements after it play no part. *)
Theorem Array_rejected_element element l elems i x h error :
  h !! l = Some (OArray elems) ->
  elems !! i = Some x ->
  (forall j y, j < i -> elems !! j = Some y -> accepts element y h) ->
  rejects_with element x error h ->
  completed (validate (Array_ element) (VObject l) h)
  = Normal (Failure {| message := message error;
                       path := Index i :: path error |}).
Proof.
  intros Hl Hx Hbefore Hrej.
  destruct (Array_rejects_with _ _ _ _ _ _ _ Hl Hx Hbefore Hrej h)
    as (al & cl & Hrun); [done|].
  by rewrite Hrun.
Qed.

(** X5: [Array_] does not catch what the validation of an element
    throws. *)
Theorem Array_throw_escapes element l elems i x h e :
  h !! l = Some (OArray elems) ->
  elems !! i = Some x ->
  (forall j y, j < i -> elems !! j = Some y -> accepts element y h) ->
  throws_with element x e h ->
  completed (validate (Array_ element) (VObject l) h) = Throw e.
Proof.
  intros Hl Hx Hbefore Hthrow.
  destruct (Array_stops _ _ _ _ _ _ Hl Hx Hbefore h)
    as (s & al & cl & Hext & _ & Hstop); [done|].
  destruct (Hthrow (h ++ al) Hext) as (al' & cl' & Hrun).
  rewrite (Hstop e al' cl'); [done|].
  unfold validate_element. cbv zeta. rewrite Hx. cbn [from_option id].
  by apply bind_throw.
Qed.

(** ** Failure paths through nested schemas *)




(** ** Every way in which [or] can end *)

Lemma or_stopped_at_first input h schema rest c al cl :
  validate schema input h = Outcome c al cl ->
  or_stopped_at input h (schema :: rest) c al cl.
Proof.
  intros Hrun.
  exists [], schema, rest, [], [], [], al, cl.
  rewrite app_nil_r. repeat split; [constructor | done].
Qed.

Lemma or_stopped_at_later input h schema rest error al cl c al' cl' :
  validate schema input h = Outcome (Normal (Failure error)) al cl ->
  or_stopped_at input (h ++ al) rest c al' cl' ->
  or_stopped_at input h (schema :: rest) c (al ++ al') (cl ++ cl').
Proof.
  intros Hrun (pre & s & post & messages & al1 & cl1 & al2 & cl2
               & -> & Hpre & Hs & -> & ->).
  exists (schema :: pre), s, post, (message error :: messages),
         (al ++ al1), (cl ++ cl1), al2, cl2.
  rewrite <- !app_assoc. rewrite <- app_assoc in Hs.
  repeat split; try done. by econstructor.
Qed.

Lemma or_loop_cases input schemas :
  forall acc h,
    match for_of schemas (try_schema input) acc h with
    | Outcome (Normal (inr errorMessages)) al cl =>
        exists messages,
          errorMessages = acc ++ messages /\
          all_fail input h schemas messages al cl
    | Outcome (Normal (inl result)) al cl =>
        (exists v, result = Success v) /\
        or_stopped_at input h schemas (Normal result) al cl
    | Outcome (Throw e) al cl =>
        or_stopped_at input h schemas (Throw e) al cl
    end.
Proof.
  induction schemas as [|schema rest IH]; intros acc h.
  - cbn. exists []. rewrite app_nil_r. split; [done | constructor].
  - cbn [for_of].
    destruct (validate schema input h) as [[[v|error]|e] al cl] eqn:Hrun.
    + rewrite (bind_normal_pure _ _ _ _ _ _ (Normal (inl (Success v)))
                 (try_schema_success _ _ _ _ _ _ acc Hrun) eq_refl).
      split; [by eexists | by apply or_stopped_at_first].
    + specialize (IH (acc ++ [message error]) (h ++ al)).
      destruct (for_of rest (try_schema input) (acc ++ [message error])
                  (h ++ al)) as [c al' cl'] eqn:Hrest.
      rewrite (bind_normal _ _ _ _ _ _ _ _ _
                 (try_schema_failure _ _ _ _ _ _ acc Hrun) Hrest).
      destruct c as [[result|errorMessages]|e].
      * destruct IH as [Hv Hstop]. split; [done|].
        by eapply or_stopped_at_later.
      * destruct IH as (messages & -> & Hall).
        exists (message error :: messages). rewrite <- app_assoc.
        split; [done | by econstructor].
      * by eapply or_stopped_at_later.
    + assert (Htry : try_schema input schema acc h = Outcome (Throw e) al cl)
        by (by apply bind_throw).
      rewrite (bind_throw _ _ _ _ _ _ Htry).
      by apply or_stopped_at_first.
Qed.

(** X9: the three ways in which [or] ends.  A success is the success of
    one child, reached after the children declared before it have all
    failed; a failure means that every child has failed, and carries the
    numbered messages and an empty path; a throw is the throw of one
    child, reached in the same way, which [or] does not catch.  In each
    case the allocations and the calls are those of the children that
    were run. *)
Theorem or_cases schemas input h :
  match validate (or schemas) input h with
  | Outcome (Normal (Success v)) al cl =>
      or_stopped_at input h schemas (Normal (Success v)) al cl
  | Outcome (Normal (Failure error)) al cl =>
      exists messages,
        all_fail input h schemas messages al cl /\
        error = {| message := "must resolve any one of the following issues: "
                              +:+ numbered 1 messages;
                   path := [] |}
  | Outcome (Throw e) al cl =>
      or_stopped_at input h schemas (Throw e) al cl
  end.
Proof.
  pose proof (or_loop_cases input schemas [] h) as Hloop.
  cbn [validate or].
  destruct (for_of schemas (try_schema input) [] h)
    as [[[result|errorMessages]|e] al cl] eqn:Hrun.
  - rewrite (bind_normal_pure _ _ _ _ _ _ (Normal result) Hrun eq_refl).
    by destruct Hloop as [[v ->] Hstop].
  - rewrite (bind_normal_pure _ _ _ _ _ _
               (Normal (failure (or_message errorMessages) [])) Hrun eq_refl).
    destruct Hloop as (messages & -> & Hall). cbn.
    exists messages. split; [done|]. by rewrite or_message_numbered.
  - by rewrite (bind_throw _ _ _ _ _ _ Hrun).
Qed.

(** ** The calls that [Array_(convert(converter))] makes *)


Lemma Array_run element l elems h :
  h !! l = Some (OArray elems) ->
  validate (Array_ element) (VObject l) h =
    (r <- for_of (seq 0 (length elems)) (validate_element element elems)
                 (VObject l) ;;
     match r with
     | inl result => ret result
     | inr changedValue => ret (Success changedValue)
     end) h.
Proof.
  intros Hl. destruct (isArray_in_extends h h l elems Hl) as [His Hitems];
    [done|].
  cbn [validate Array_]. unfold Array_isArray, elements.
  rewrite bind_read, His. cbn [negb]. by rewrite bind_read, Hitems.
Qed.




(** ** What a changed property leaves in place *)

Lemma lookup_prop_define_eq props k v :
  lookup_prop k (define_prop props k v) = Some v.
Proof.
  induction props as [|[k' v'] rest IH]; cbn.
  - by rewrite bool_decide_eq_true_2.
  - destruct (bool_decide (k' = k)) eqn:E; cbn.
    + by rewrite bool_decide_eq_true_2.
    + by rewrite E.
Qed.

Lemma lookup_prop_define_ne props k v k' :
  k' <> k ->
  lookup_prop k' (define_prop props k v) = lookup_prop k' props.
Proof.
  intros Hne. induction props as [|[k0 v0] rest IH]; cbn.
  - by rewrite bool_decide_eq_false_2.
  - destruct (bool_decide (k0 = k)) eqn:E; cbn.
    + apply bool_decide_eq_true_1 in E as ->.
      by rewrite !bool_decide_eq_false_2.
    + by rewrite IH.
Qed.

Lemma number_to_string_nonnil n : Nat.to_uint n <> Decimal.Nil.
Proof.
  rewrite <- (DecimalNat.Unsigned.of_to n) at 1.
  rewrite DecimalNat.Unsigned.to_of. apply DecimalFacts.unorm_nonnil.
Qed.

(** The decimal form of [n] is an array index, namely [n] ... *)
Lemma array_index_number_to_string n :
  array_index (KString (number_to_string n)) = Some n.
Proof.
  unfold array_index, number_to_string.
  rewrite NilZero.usu by apply number_to_string_nonnil.
  rewrite DecimalNat.Unsigned.of_to. by rewrite String.eqb_refl.
Qed.

(** ... and no other key is. *)
Lemma array_index_inv k n :
  array_index k = Some n -> k = KString (number_to_string n).
Proof.
  destruct k as [s|id]; [|done]. unfold array_index.
  destruct (NilZero.uint_of_string s) as [u|]; [|done].
  destruct (String.eqb_spec (number_to_string (Nat.of_uint u)) s) as [<-|];
    [|done].
  by intros [= <-].
Qed.

Lemma lookup_prop_index_props k elems : forall j,
  lookup_prop k (imap (fun i x => (KString (number_to_string (j + i)), x)) elems)
  = match array_index k with
    | Some n => if bool_decide (j <= n) then elems !! (n - j) else None
    | None => None
    end.
Proof.
  induction elems as [|x rest IH]; intros j.
  - cbn. destruct (array_index k) as [n|]; [|done].
    by destruct (bool_decide (j <= n)).
  - cbn [imap lookup_prop]. rewrite Nat.add_0_r.
    destruct (bool_decide (KString (number_to_string j) = k)) eqn:E.
    + apply bool_decide_eq_true_1 in E as <-.
      rewrite array_index_number_to_string.
      rewrite bool_decide_eq_true_2 by lia. by rewrite Nat.sub_diag.
    + apply bool_decide_eq_false_1 in E.
      rewrite (imap_ext _ (fun i x => (KString (number_to_string (S j + i)), x)))
        by (intros i y _; cbn; by rewrite Nat.add_succ_r).
      rewrite IH. destruct (array_index k) as [n|] eqn:Hk; [|done].
      assert (n <> j) by (intros ->; by apply E; rewrite (array_index_inv _ _ Hk)).
      destruct (decide (j <= n)).
      * rewrite !bool_decide_eq_true_2 by lia.
        by replace (n - j) with (S (n - S j)) by lia.
      * by rewrite !bool_decide_eq_false_2 by lia.
Qed.

(** The copy that the object spread makes has the own properties of the
    original, also when the original is an array. *)
Lemma own_property_spread o k :
  own_property (OPlain (own_props o)) k = own_property o k.
Proof.
  destruct o as [props|elems]; [done|]. cbn [own_property own_props].
  pose proof (lookup_prop_index_props k elems 0) as Hlookup.
  cbn [Nat.add] in Hlookup. rewrite Hlookup.
  destruct (array_index k) as [n|]; [|done].
  rewrite bool_decide_eq_true_2 by lia. by rewrite Nat.sub_0_r.
Qed.

(** When one declared property is validated to a value [!==] to the
    original, whatever the heap, and every other entry is satisfied
    without a change, the properties schema returns a new object: the own
    properties of the input with that one property overwritten by what
    its schema returned. *)
Lemma objectFunction_one_changed pre key p post l o h :
  h !! l = Some o ->
  Forall (entry_unchanged o h) (pre ++ post) ->
  has_property o key = true ->
  accepts_changed (property_schema p) (get_property o key) h ->
  exists al cl ref r,
    validate (objectFunction (pre ++ (key, p) :: post)) (VObject l) h
    = Outcome (Normal (Success (VObject ref))) al cl /\
    length h <= ref /\
    (h ++ al) !! ref = Some (OPlain (define_prop (own_props o) key r)) /\
    returned_between (property_schema p) h (h ++ al) (get_property o key) r.
Proof.
  intros Hl Hall Hin Hacc.
  apply Forall_app in Hall as [Hpre Hpost].
  rewrite objectFunction_run by done.
  assert (Hrecord : deref_in h (VObject l) = o) by (cbn; by rewrite Hl).
  rewrite Hrecord. unfold required_only.
  rewrite !List.filter_app. cbn [List.filter snd].
  fold (required_only pre) (required_only post).
  destruct (is_optional p) eqn:Hopt; cbn [negb].
  - (* the changed property is optional *)
    destruct (required_loop_unchanged o h pre (VObject l) h)
      as (a1 & c1 & H1); [done..|].
    destruct (required_loop_unchanged o h post (VObject l) (h ++ a1))
      as (a2 & c2 & H2); [done | extends |].
    destruct (optional_loop_unchanged o h pre (VObject l) (h ++ a1 ++ a2))
      as (a3 & c3 & H3); [done | extends |].
    destruct (Hacc ((h ++ a1 ++ a2) ++ a3)) as (r & a4 & c4 & H4 & Hne);
      [extends|].
    set (new := OPlain (define_prop (own_props o) key r)).
    set (ref := length (((h ++ a1 ++ a2) ++ a3) ++ a4)).
    destruct (optional_loop_unchanged o h post (VObject ref)
                (((h ++ a1 ++ a2) ++ a3) ++ a4 ++ [new]))
      as (a5 & c5 & H5); [done | extends |].
    eexists _, _, ref, r. split; [|split; [|split]].
    + eapply bind_normal.
      { eapply for_of_app; [exact H1 | exact H2]. }
      cbn beta iota. eapply bind_normal_pure.
      { eapply for_of_app; [exact H3|]. cbn [for_of].
        eapply bind_normal.
        { apply validate_optional_changed; try done.
          apply lookup_app_l_Some. by apply lookup_app_l_Some. }
        exact H5. }
      reflexivity.
    + unfold ref. rewrite !length_app. lia.
    + rewrite !app_assoc.
      apply lookup_app_l_Some, list_lookup_middle.
      unfold ref. rewrite !length_app. lia.
    + exists ((h ++ a1 ++ a2) ++ a3), a4, c4.
      split; [extends|]. split; [done|].
      exists ([new] ++ a5). by rewrite <- !app_assoc.
  - (* the changed property is required *)
    destruct (required_loop_unchanged o h pre (VObject l) h)
      as (a1 & c1 & H1); [done..|].
    destruct (Hacc (h ++ a1)) as (r & a2 & c2 & H2 & Hne); [extends|].
    set (new := OPlain (define_prop (own_props o) key r)).
    set (ref := length ((h ++ a1) ++ a2)).
    destruct (required_loop_unchanged o h post (VObject ref)
                ((h ++ a1) ++ a2 ++ [new]))
      as (a3 & c3 & H3); [done | extends |].
    destruct (optional_loop_unchanged o h pre (VObject ref)
                (h ++ a1 ++ (a2 ++ [new]) ++ a3))
      as (a4 & c4 & H4); [done | extends |].
    destruct (optional_loop_unchanged o h post (VObject ref)
                ((h ++ a1 ++ (a2 ++ [new]) ++ a3) ++ a4))
      as (a5 & c5 & H5); [done | extends |].
    eexists _, _, ref, r. split; [|split; [|split]].
    + eapply bind_normal.
      { eapply for_of_app; [exact H1|]. cbn [for_of].
        eapply bind_normal.
        { apply validate_required_changed; try done.
          by apply lookup_app_l_Some. }
        exact H3. }
      cbn beta iota. eapply bind_normal_pure.
      { eapply for_of_app; [exact H4 | exact H5]. }
      reflexivity.
    + unfold ref. rewrite !length_app. lia.
    + rewrite !app_assoc.
      do 3 apply lookup_app_l_Some. apply list_lookup_middle.
      unfold ref. rewrite !length_app. lia.
    + exists (h ++ a1), a2, c2.
      split; [extends|]. split; [done|].
      exists ([new] ++ a3 ++ a4 ++ a5). by rewrite <- !app_assoc.
Qed.

(** X12: when one declared property is present and its schema, whatever
    has been allocated in the meantime, accepts it and returns a value
    [!==] to the original, and the other entries are satisfied without a
    change, the result is a new object, the input object is left as it
    was, and the new object holds under that key what the schema of the
    property returned in the course of the validation and, under every
    other key, the own property of the input, declared in the schema or
    not. *)
Theorem objectFunction_change_keeps_others pre key p post l o h :
  h !! l = Some o ->
  Forall (entry_unchanged o h) (pre ++ post) ->
  has_property o key = true ->
  accepts_changed (property_schema p) (get_property o key) h ->
  exists al cl ref o' r,
    validate (objectFunction (pre ++ (key, p) :: post)) (VObject l) h
    = Outcome (Normal (Success (VObject ref))) al cl /\
    ref <> l /\
    (h ++ al) !! l = Some o /\
    (h ++ al) !! ref = Some o' /\
    returned_between (property_schema p) h (h ++ al) (get_property o key) r /\
    strict_equal r (get_property o key) = false /\
    own_property o' key = Some r /\
    forall k, k <> key -> own_property o' k = own_property o k.
Proof.
  intros Hl Hall Hin Hacc.
  destruct (objectFunction_one_changed pre key p post l o h Hl Hall Hin Hacc)
    as (al & cl & ref & r & Hrun & Hfresh & Hnew & Hr).
  exists al, cl, ref, (OPlain (define_prop (own_props o) key r)), r.
  repeat split; try done.
  - apply lookup_lt_Some in Hl. lia.
  - by apply lookup_app_l_Some.
  - destruct Hr as (h' & al' & cl' & Hh & Hchild & _).
    destruct (Hacc h' Hh) as (r' & al'' & cl'' & Hchild' & Hne).
    rewrite Hchild in Hchild'. by injection Hchild' as -> _ _.
  - apply lookup_prop_define_eq.
  - intros k Hk. cbn [own_property].
    rewrite lookup_prop_define_ne by done. apply (own_property_spread o k).
Qed.

(** ** [Array_], [object] and the leaf schemas *)

(** *** The result of a successful run of [Array_] *)

Lemma bind_inv {A B} (m : M A) (k : A -> M B) h b al cl :
  bind m k h = Outcome (Normal b) al cl ->
  exists a al1 cl1 al2 cl2,
    m h = Outcome (Normal a) al1 cl1 /\
    k a (h ++ al1) = Outcome (Normal b) al2 cl2 /\
    al = al1 ++ al2 /\ cl = cl1 ++ cl2.
Proof.
  unfold bind. destruct (m h) as [[a|e] al1 cl1]; cbn; [|intros H; discriminate H].
  destruct (k a (h ++ al1)) as [c al2 cl2] eqn:Hk. cbn.
  intros H. injection H as -> <- <-. by exists a, al1, cl1, al2, cl2.
Qed.

Lemma for_of_snoc_inv {A R S} (body : A -> S -> M (R + S)) items x s h s' al cl :
  for_of (items ++ [x]) body s h = Outcome (Normal (inr s')) al cl ->
  exists s0 al0 cl0 al1 cl1,
    for_of items body s h = Outcome (Normal (inr s0)) al0 cl0 /\
    body x s0 (h ++ al0) = Outcome (Normal (inr s')) al1 cl1 /\
    al = al0 ++ al1 /\ cl = cl0 ++ cl1.
Proof.
  rewrite for_of_app_bind. intros H.
  apply bind_inv in H as (r & al0 & cl0 & al1 & cl1 & Hpre & Hlast & -> & ->).
  destruct r as [result|s0]; [discriminate|].
  cbn [for_of] in Hlast.
  apply bind_inv in Hlast as (r & a & c & a' & c' & Hbody & Hret & -> & ->).
  destruct r as [result|s1]; [discriminate|].
  injection Hret as -> <- <-.
  exists s0, al0, cl0, a, c. by rewrite !app_nil_r.
Qed.

Lemma validate_element_inr_inv element items i s h s' al cl :
  validate_element element items i s h = Outcome (Normal (inr s')) al cl ->
  exists r al1,
    validate element (default VUndefined (items !! i)) h
    = Outcome (Normal (Success r)) al1 cl /\
    (strict_equal r (default VUndefined (items !! i)) = true /\
     s' = s /\ al = al1 \/
     strict_equal r (default VUndefined (items !! i)) = false /\
     s' = VObject (length (h ++ al1)) /\
     al = al1 ++ [OArray (toSpliced (elements_in (h ++ al1) s) i 1 [r])]).
Proof.
  unfold validate_element. cbv zeta. intros H.
  apply bind_inv in H as (result & al1 & cl1 & al2 & cl2 & Hrun & Hrest & -> & ->).
  destruct result as [r|error]; [|discriminate].
  exists r, al1.
  destruct (strict_equal r (default VUndefined (items !! i))) eqn:Heq;
    cbn [negb] in Hrest.
  - injection Hrest as <- <- <-. rewrite !app_nil_r. split; [done|]. by left.
  - unfold elements in Hrest. rewrite bind_read in Hrest.
    apply bind_inv in Hrest as (changed & a & c & a' & c' & Halloc & Hret & -> & ->).
    injection Halloc as <- <- <-. injection Hret as <- <- <-.
    rewrite !app_nil_r. split; [done|]. by right.
Qed.

Lemma validate_element_inl_inv element items i s h result al cl :
  validate_element element items i s h = Outcome (Normal (inl result)) al cl ->
  exists error, result = Failure error.
Proof.
  unfold validate_element. cbv zeta. intros H.
  apply bind_inv in H as (r & al1 & cl1 & al2 & cl2 & Hrun & Hrest & -> & ->).
  destruct r as [r|error].
  - destruct (negb _); [|discriminate].
    unfold elements in Hrest. rewrite bind_read in Hrest.
    apply bind_inv in Hrest as (changed & a & c & a' & c' & _ & Hret & _).
    discriminate.
  - injection Hrest as <- _ _. by eexists.
Qed.

Lemma element_loop_inl_inv element elems items : forall s h result al cl,
  for_of items (validate_element element elems) s h
  = Outcome (Normal (inl result)) al cl ->
  exists error, result = Failure error.
Proof.
  induction items as [|i rest IH]; intros s h result al cl H; [discriminate|].
  cbn [for_of] in H.
  apply bind_inv in H as (r & al1 & cl1 & al2 & cl2 & Hbody & Hrest & -> & ->).
  destruct r as [result'|s'].
  - injection Hrest as <- _ _. by eapply validate_element_inl_inv.
  - by eapply IH.
Qed.

Lemma zip_with_snoc (xs rs : list js_value) x r :
  length xs = length rs ->
  zip_with keep_or_replace (xs ++ [x]) (rs ++ [r])
  = zip_with keep_or_replace xs rs ++ [keep_or_replace x r].
Proof. intros Hlen. by rewrite zip_with_app. Qed.

Lemma all_same_snoc xs rs x r :
  length xs = length rs ->
  all_same (xs ++ [x]) (rs ++ [r]) <->
  all_same xs rs /\ strict_equal r x = true.
Proof.
  intros Hlen. unfold all_same. split.
  - intros H. apply Forall2_app_inv in H as [H1 H2]; [|done].
    split; [done|]. by inversion H2.
  - intros [H1 H2]. apply Forall2_app; [done|]. by repeat constructor.
Qed.

Lemma returned_between_mono schema h h1 h2 v r :
  h1 `prefix_of` h2 ->
  returned_between schema h h1 v r -> returned_between schema h h2 v r.
Proof.
  intros Hpre (h' & al & cl & Hh & Hrun & Hend).
  exists h', al, cl. split; [done|]. split; [done|]. by etrans.
Qed.

Section Array_run_result.
Variables (element : SchemaBase) (elems : list js_value).
Variables (h : heap) (l : loc).
Hypothesis Hl : h !! l = Some (OArray elems).

Lemma element_loop_inv n : n <= length elems -> forall s al cl,
  for_of (seq 0 n) (validate_element element elems) (VObject l) h
  = Outcome (Normal (inr s)) al cl ->
  exists c rs,
    s = VObject c /\
    Forall2 (returned_between element h (h ++ al)) (take n elems) rs /\
    (h ++ al) !! c
    = Some (OArray (zip_with keep_or_replace (take n elems) rs
                    ++ drop n elems)) /\
    (c = l \/ length h <= c) /\
    (c = l <-> all_same (take n elems) rs).
Proof.
  assert (Hlt : l < length h) by (by eapply lookup_lt_Some).
  induction n as [|n IH]; intros Hn s al cl Hloop.
  - injection Hloop as <- <- <-. exists l, []. rewrite app_nil_r.
    split; [done|]. split; [constructor|]. split; [done|].
    split; [by left|]. split; [constructor | done].
  - rewrite seq_S in Hloop. cbn [Nat.add] in Hloop.
    apply for_of_snoc_inv in Hloop
      as (s0 & al0 & cl0 & al1 & cl1 & Hpre & Hbody & -> & ->).
    destruct (IH ltac:(lia) _ _ _ Hpre)
      as (c & rs & -> & Hrs & Hcell & Hfresh & Hsame).
    assert (Hi : n < length elems) by lia.
    destruct (lookup_lt_is_Some_2 elems n Hi) as [x Hx].
    assert (Hlen : length (take n elems) = length rs)
      by (by eapply Forall2_length).
    assert (Hlenz : length (zip_with keep_or_replace (take n elems) rs) = n).
    { rewrite length_zip_with, <- Hlen, length_take. lia. }
    apply validate_element_inr_inv in Hbody as (r & a1 & Hrun & Hcase).
    rewrite Hx in Hrun, Hcase. cbn [from_option id] in Hrun, Hcase.
    assert (Hr : returned_between element h ((h ++ al0) ++ a1) x r).
    { exists (h ++ al0), a1, cl1. split; [by apply prefix_app_r|]. done. }
    assert (Hall : Forall2 (returned_between element h (h ++ al0 ++ al1))
                     (take (S n) elems) (rs ++ [r])).
    { rewrite (take_S_r _ _ _ Hx). apply Forall2_app.
      - eapply Forall2_impl; [exact Hrs|]. intros y r' Hy.
        eapply returned_between_mono; [|exact Hy].
        rewrite app_assoc. by apply prefix_app_r.
      - constructor; [|constructor].
        eapply returned_between_mono; [|exact Hr].
        destruct Hcase as [(_ & _ & ->)|(_ & _ & ->)];
          rewrite !app_assoc; [done | by apply prefix_app_r]. }
    destruct Hcase as [(Heq & -> & ->)|(Hne & -> & ->)].
    + exists c, (rs ++ [r]). split; [done|]. split; [done|].
      split; [|split; [done|]].
      * rewrite app_assoc. apply lookup_app_l_Some.
        rewrite (take_S_r _ _ _ Hx), zip_with_snoc by done.
        unfold keep_or_replace at 2. rewrite Heq.
        rewrite <- app_assoc. cbn [app].
        by rewrite <- (drop_S _ _ _ Hx).
      * rewrite (take_S_r _ _ _ Hx), all_same_snoc by done. tauto.
    + exists (length ((h ++ al0) ++ a1)), (rs ++ [r]).
      split; [done|]. split; [done|]. split; [|split].
      * rewrite !app_assoc. rewrite list_lookup_middle by done.
        do 2 f_equal. unfold elements_in. cbn.
        rewrite (lookup_app_l_Some _ _ _ _ Hcell). cbn.
        rewrite (take_S_r _ _ _ Hx), zip_with_snoc by done.
        unfold keep_or_replace at 3. rewrite Hne.
        unfold toSpliced.
        rewrite take_app_le, take_ge by lia.
        rewrite drop_app_ge by lia.
        rewrite Hlenz, (drop_S _ _ _ Hx).
        replace (n + 1 - n) with 1 by lia. cbn [drop].
        by rewrite <- app_assoc.
      * right. rewrite !length_app. lia.
      * rewrite (take_S_r _ _ _ Hx), all_same_snoc by done.
        rewrite !length_app. split; [lia | intros [_ ?]; congruence].
Qed.

(** The array that a successful run of [Array_] returns. *)
Lemma Array_run_result v al cl :
  validate (Array_ element) (VObject l) h
  = Outcome (Normal (Success v)) al cl ->
  exists ref rs,
    v = VObject ref /\
    Forall2 (returned_between element h (h ++ al)) elems rs /\
    (h ++ al) !! ref = Some (OArray (zip_with keep_or_replace elems rs)) /\
    (ref = l \/ length h <= ref) /\
    (ref = l <-> all_same elems rs).
Proof.
  rewrite (Array_run _ _ _ _ Hl). intros H.
  apply bind_inv in H as (r & al1 & cl1 & al2 & cl2 & Hloop & Hret & -> & ->).
  destruct r as [result|s].
  - destruct (element_loop_inl_inv _ _ _ _ _ _ _ _ Hloop) as [error ->].
    discriminate.
  - injection Hret as <- <- <-. rewrite !app_nil_r.
    destruct (element_loop_inv (length elems) ltac:(lia) _ _ _ Hloop)
      as (c & rs & -> & Hrs & Hcell & Hfresh & Hsame).
    rewrite firstn_all, drop_all, app_nil_r in *.
    by exists c, rs.
Qed.
End Array_run_result.

(** X11: what a successful validation by [Array_] returns: a reference
    to an array of the same length in which every position whose result
    is [!==] to the element holds that result and every other position
    holds the original element, the results being what the element
    schema returned for the elements in the course of the validation.
    The reference is the input's exactly when every result is [===] to
    its element; otherwise it is newly allocated. *)
Theorem Array_copies_on_change element l elems h v al cl :
  h !! l = Some (OArray elems) ->
  validate (Array_ element) (VObject l) h
  = Outcome (Normal (Success v)) al cl ->
  exists ref rs,
    v = VObject ref /\
    Forall2 (returned_between element h (h ++ al)) elems rs /\
    (h ++ al) !! ref = Some (OArray (zip_with keep_or_replace elems rs)) /\
    length (zip_with keep_or_replace elems rs) = length elems /\
    (ref = l \/ length h <= ref) /\
    (ref = l <-> all_same elems rs).
Proof.
  intros Hl Hrun.
  destruct (Array_run_result element elems h l Hl v al cl Hrun)
    as (ref & rs & -> & Hrs & Hcell & Hfresh & Hsame).
  exists ref, rs. repeat split; try done; try apply Hsame.
  rewrite length_zip_with, (Forall2_length _ _ _ Hrs). lia.
Qed.

(** X13: [object({})] and the bare [object] do the same on every
    value. *)
Theorem objectFunction_nil_is_object value h :
  validate (objectFunction []) value h = validate object value h.
Proof.
  cbn [validate objectFunction object].
  by destruct (is_typeof value TObject), (strict_equal value VNull).
Qed.

(** X14: what the bare [object] rejects, every properties schema rejects
    in the same way, without a look at its property map. *)
Theorem objectFunction_rejects_like_object properties value h error :
  completed (validate object value h) = Normal (Failure error) ->
  validate (objectFunction properties) value h = validate object value h.
Proof.
  cbn [validate objectFunction object].
  by destruct (is_typeof value TObject), (strict_equal value VNull).
Qed.

(** X15: the leaf schemas that test the class of the value, and the bare
    [object], exclude one another: a value is accepted by at most one of
    them. *)
Theorem typed_leaves_exclusive s1 s2 value h r1 r2 :
  In s1 typed_leaves -> In s2 typed_leaves ->
  completed (validate s1 value h) = Normal (Success r1) ->
  completed (validate s2 value h) = Normal (Success r2) ->
  s1 = s2.
Proof.
  intros H1 H2 A1 A2. cbn in H1, H2.
  destruct H1 as [<-|[<-|[<-|[<-|[<-|[<-|[]]]]]]];
    destruct H2 as [<-|[<-|[<-|[<-|[<-|[<-|[]]]]]]];
    first [reflexivity | destruct value; cbn in A1, A2; discriminate].
Qed.

Lemma or_success_from_child schemas input h v :
  completed (validate (or schemas) input h) = Normal (Success v) ->
  exists schema h',
    schema ∈ schemas /\
    completed (validate schema input h') = Normal (Success v).
Proof.
  pose proof (or_loop_cases input schemas [] h) as Hloop.
  cbn [validate or].
  destruct (for_of schemas (try_schema input) [] h)
    as [[[result|errorMessages]|e] al cl] eqn:Hrun.
  - rewrite (bind_normal_pure _ _ _ _ _ _ (Normal result) Hrun eq_refl).
    cbn. intros [= ->].
    destruct Hloop as [_ (pre & s & post & messages & al1 & cl1 & al2 & cl2
                          & -> & _ & Hs & _)].
    exists s, (h ++ al1). split; [|by rewrite Hs].
    apply elem_of_app. right. left.
  - by rewrite (bind_normal_pure _ _ _ _ _ _
                  (Normal (failure (or_message errorMessages) [])) Hrun eq_refl).
  - by rewrite (bind_throw _ _ _ _ _ _ Hrun).
Qed.

(** X16: [or] keeps the property of returning the input as it is: when
    each child returns what it accepts unchanged, so does their [or]. *)
Theorem or_returns_input schemas :
  Forall returns_input schemas -> returns_input (or schemas).
Proof.
  intros Hall v h r Hrun. rewrite Forall_forall in Hall.
  destruct (or_success_from_child _ _ _ _ Hrun) as (schema & h' & Hin & Hs).
  by eapply Hall.
Qed.

(** The schemas of the examples neither allocate nor depend on the
    heap. *)
Lemma pure_accepts schema v h r :
  (forall h', validate schema v h' = Outcome (Normal (Success r)) [] []) ->
  accepts schema v h.
Proof. intros Hrun h' _. by exists r, [], []. Qed.

Lemma pure_accepts_as schema v h r cl :
  (forall h', validate schema v h' = Outcome (Normal (Success r)) [] cl) ->
  accepts_as schema v r h.
Proof. intros Hrun h' _. by exists [], cl. Qed.

Lemma pure_rejects_with schema v h error :
  (forall h', validate schema v h' = Outcome (Normal (Failure error)) [] []) ->
  rejects_with schema v error h.
Proof. intros Hrun h' _. by exists [], []. Qed.

Lemma pure_throws_with schema v h e cl :
  (forall h', validate schema v h' = Outcome (Throw e) [] cl) ->
  throws_with schema v e h.
Proof. intros Hrun h' _. by exists [], cl. Qed.

(** * Schemas that never throw *)

Lemma ret_no_throw {A} (a : A) : no_throw (ret a).
Proof. intros h. by exists a. Qed.

Lemma read_no_throw {A} (f : heap -> A) : no_throw (read f).
Proof. intros h. by exists (f h). Qed.

Lemma alloc_no_throw o : no_throw (alloc o).
Proof. intros h. by eexists. Qed.

Lemma bind_no_throw {A B} (m : M A) (k : A -> M B) :
  no_throw m -> (forall a, no_throw (k a)) -> no_throw (bind m k).
Proof.
  intros Hm Hk h. destruct (Hm h) as [a Ha]. unfold bind. cbv zeta.
  rewrite Ha. destruct (Hk a (h ++ allocated (m h))) as [b Hb].
  exists b. exact Hb.
Qed.

Lemma for_of_no_throw {A R S} (items : list A) (body : A -> S -> M (R + S)) :
  (forall x, x ∈ items -> forall s, no_throw (body x s)) ->
  forall s, no_throw (for_of items body s).
Proof.
  induction items as [|x rest IH]; intros Hbody s.
  - apply ret_no_throw.
  - cbn [for_of]. apply bind_no_throw.
    + apply Hbody. by left.
    + intros [result|s'].
      * apply ret_no_throw.
      * apply IH. intros y Hy. apply Hbody. by right.
Qed.

Lemma spread_with_no_throw changedValue key v :
  no_throw (spread_with changedValue key v).
Proof.
  apply bind_no_throw; [apply read_no_throw|]. intros o. apply alloc_no_throw.
Qed.

Lemma after_property_no_throw record key changedValue result :
  no_throw
    (match result with
     | Failure error =>
         ret (inl (failure (message error) (path error ++ [Key key])))
     | Success v =>
         if negb (strict_equal v (get_property record key))
         then changed <- spread_with changedValue key v ;; ret (inr changed)
         else ret (inr changedValue)
     end : M (ValidateResult + js_value)).
Proof.
  destruct result as [v|error]; [|apply ret_no_throw].
  destruct (negb _); [|apply ret_no_throw].
  apply bind_no_throw; [apply spread_with_no_throw|].
  intros changed. apply ret_no_throw.
Qed.

Lemma validate_required_no_throw record entry changedValue :
  never_throws (property_schema (snd entry)) ->
  no_throw (validate_required record entry changedValue).
Proof.
  destruct entry as [key p]. intros Hp. cbn [validate_required].
  destruct (negb _); [apply ret_no_throw|].
  apply bind_no_throw; [apply Hp|]. intros result.
  apply after_property_no_throw.
Qed.

Lemma validate_optional_no_throw record entry changedValue :
  never_throws (property_schema (snd entry)) ->
  no_throw (validate_optional record entry changedValue).
Proof.
  destruct entry as [key p]. intros Hp. cbn [validate_optional].
  destruct (negb _); [apply ret_no_throw|].
  apply bind_no_throw; [apply Hp|]. intros result.
  apply after_property_no_throw.
Qed.

Lemma validate_element_no_throw element items i changedValue :
  never_throws element ->
  no_throw (validate_element element items i changedValue).
Proof.
  intros He. unfold validate_element. cbv zeta.
  apply bind_no_throw; [apply He|]. intros [v|error]; [|apply ret_no_throw].
  destruct (negb _); [|apply ret_no_throw].
  apply bind_no_throw; [apply read_no_throw|]. intros current.
  apply bind_no_throw; [apply alloc_no_throw|]. intros changed.
  apply ret_no_throw.
Qed.

Lemma leaf_never_throws schema :
  schema ∈ [boolean; number; bigint; string_; symbol; unknown; any; never;
            object] ->
  never_throws schema.
Proof.
  intros Hin value h.
  repeat (apply elem_of_cons in Hin as [->|Hin]; [by eexists|]).
  by apply elem_of_nil in Hin.
Qed.

Lemma convert_never_throws converter :
  (forall h value new e,
     invoke converter h value = (new, Throw e) ->
     exists text, catch_message e = inl text) ->
  never_throws (convert converter).
Proof.
  intros Hdescribed value h. rewrite convert_run.
  destruct (invoke converter h value) as [new [v|e]] eqn:Hcall;
    [by eexists|].
  destruct (Hdescribed h value new e Hcall) as [text ->]. by eexists.
Qed.

Lemma negate_never_throws : never_throws (convert negate).
Proof. apply convert_never_throws. intros h value new e Hcall. done. Qed.

(** X17: [Array_] throws only what its element schema throws: over an
    element schema that never throws, it completes with a success or a
    failure on every value. *)
Theorem Array_never_throws element :
  never_throws element -> never_throws (Array_ element).
Proof.
  intros He value. cbn [validate Array_].
  apply bind_no_throw; [apply read_no_throw|]. intros isArray.
  destruct (negb isArray); [apply ret_no_throw|].
  apply bind_no_throw; [apply read_no_throw|]. intros items. cbv zeta.
  apply bind_no_throw.
  - apply for_of_no_throw. intros i _ s.
    by apply validate_element_no_throw.
  - intros [result|changedValue]; apply ret_no_throw.
Qed.

(** X18: the properties combinator throws only what the schemas of its
    property map throw: when none of them ever throws, it completes with
    a success or a failure on every value. *)
Theorem objectFunction_never_throws properties :
  Forall (fun entry => never_throws (property_schema (snd entry))) properties ->
  never_throws (objectFunction properties).
Proof.
  intros Hall value. cbn [validate objectFunction].
  destruct (_ || _); [apply ret_no_throw|].
  apply bind_no_throw; [apply read_no_throw|]. intros record.
  cbv zeta. cbn [partition].
  apply bind_no_throw.
  - apply for_of_no_throw. intros entry Hin s.
    apply validate_required_no_throw.
    apply list_elem_of_In, List.filter_In in Hin as [Hin _].
    by apply (proj1 (List.Forall_forall _ _) Hall).
  - intros [result|changedValue]; [apply ret_no_throw|].
    apply bind_no_throw.
    + apply for_of_no_throw. intros entry Hin s.
      apply validate_optional_no_throw.
      apply list_elem_of_In, List.filter_In in Hin as [Hin _].
      by apply (proj1 (List.Forall_forall _ _) Hall).
    + intros [result|changedValue']; apply ret_no_throw.
Qed.

(** X19: [or] throws only what one of its children throws: over children
    that never throw, it completes with a success or a failure on every
    value. *)
Theorem or_never_throws schemas :
  Forall never_throws schemas -> never_throws (or schemas).
Proof.
  intros Hall input. cbn [validate or].
  apply bind_no_throw.
  - apply for_of_no_throw. intros schema Hin errorMessages.
    unfold try_schema. apply bind_no_throw.
    + by apply (proj1 (Forall_forall _ _) Hall).
    + intros [v|error]; apply ret_no_throw.
  - intros [result|errorMessages]; apply ret_no_throw.
Qed.

End Runtime.

(** * Examples in a realm without inherited properties *)

Lemma required_before_optional_witness :
  let properties : list (key * property) :=
    [("b" : key, optional number); ("a" : key, Required number)] in
  let h := [OPlain [("b" : key, VString "x")]] in
  completed (validate (objectFunction no_inherited (required_only properties)) (VObject 0) h)
    = Normal (Failure {| message := "missing required property";
                         path := [Key "a"] |}) /\
  validate (objectFunction no_inherited properties) (VObject 0) h
    = Outcome (Normal (Failure {| message := "missing required property";
                                  path := [Key "a"] |})) [] [].
Proof.
  intros properties h. split; [reflexivity|].
  rewrite (required_before_optional no_inherited properties (VObject 0) h
             {| message := "missing required property"; path := [Key "a"] |}
             eq_refl).
  reflexivity.
Defined.

Lemma object_accepts_array_witness :
  let properties : list (key * property) :=
    [("0" : key, Required string_); ("1" : key, optional number);
     ("x" : key, optional boolean)] in
  let elems := [VString "a"; VNumber 2] in
  [OArray elems] !! 0 = Some (OArray elems) /\
  Forall (entry_unchanged no_inherited (OArray elems) [OArray elems]) properties /\
  completed (validate (objectFunction no_inherited properties) (VObject 0) [OArray elems])
    = Normal (Success (VObject 0)).
Proof.
  intros properties elems.
  assert (H : Forall (entry_unchanged no_inherited (OArray elems) [OArray elems]) properties).
  { apply List.Forall_cons;
      [|apply List.Forall_cons; [|apply List.Forall_cons; [|apply List.Forall_nil]]].
    - split.
      + intros _. vm_compute. reflexivity.
      + intros _. apply (leaf_accepts_unchanged _ _ _ (VString "a"));
          [intros h'|]; vm_compute; reflexivity.
    - split.
      + intros H. vm_compute in H. discriminate.
      + intros _. apply (leaf_accepts_unchanged _ _ _ (VNumber 2));
          [intros h'|]; vm_compute; reflexivity.
    - split.
      + intros H. vm_compute in H. discriminate.
      + intros H. vm_compute in H. discriminate. }
  split; [reflexivity|]. split; [exact H|].
  exact (object_accepts_array no_inherited properties 0 elems [OArray elems] eq_refl H).
Defined.

(** C9 (as stated) fails: an array all of whose required keys are present
    and valid (here there is none) is still rejected when a present
    optional key is invalid. *)
Lemma optional_key_rejects_array :
  let properties : list (key * property) := [("0" : key, optional number)] in
  let elems := [VString "x"] in
  (forall key schema, In (key, Required schema) properties ->
     has_property no_inherited (OArray elems) key = true /\
     accepts_unchanged schema (get_property no_inherited (OArray elems) key) [OArray elems]) /\
  validate (objectFunction no_inherited properties) (VObject 0) [OArray elems]
  = Outcome (Normal (Failure {| message := "not a number";
                                path := [Key "0"] |})) [] [].
Proof.
  intros properties elems. split; [|reflexivity].
  intros key schema [Heq|[]]. discriminate.
Qed.

(** Nor is the array returned when a required key is present and valid
    but its validation changes the value: the result is a new plain
    object that holds the array's index properties. *)
Lemma converted_key_copies_array :
  validate (objectFunction no_inherited [("0" : key, Required (convert negate))])
           (VObject 0) [OArray [VNumber 1; VNumber 2]]
  = Outcome (Normal (Success (VObject 1)))
            [OPlain [("0" : key, VNumber (-1)); ("1" : key, VNumber 2)]]
            [CallConverter negate (VNumber 1)].
Proof. reflexivity. Qed.

(** * Examples for the further properties *)

(** [object({b: optional(string), a: number})] on [{a: 1, b: 2}]: [a] is
    looked at first and accepted, [b] is rejected. *)
Lemma objectFunction_rejected_key_witness :
  let properties : list (key * property) :=
    [("b" : key, optional string_); ("a" : key, Required number)] in
  let o := OPlain [("a" : key, VNumber 1); ("b" : key, VNumber 2)] in
  let error := {| message := "not a string"; path := [] |} in
  [o] !! 0 = Some o /\
  processing_order properties
    = [("a" : key, Required number)] ++ ("b" : key, optional string_) :: [] /\
  Forall (entry_accepted no_inherited o [o]) [("a" : key, Required number)] /\
  has_property no_inherited o "b" = true /\
  rejects_with string_ (get_property no_inherited o "b") error [o] /\
  completed (validate (objectFunction no_inherited properties) (VObject 0) [o])
  = Normal (Failure {| message := "not a string"; path := [Key "b"] |}).
Proof.
  intros properties o error.
  assert (Hpre : Forall (entry_accepted no_inherited o [o])
                        [("a" : key, Required number)]).
  { apply List.Forall_cons; [|apply List.Forall_nil]. split.
    - intros _. reflexivity.
    - intros _. apply (pure_accepts _ _ _ (VNumber 1)). intros h'. reflexivity. }
  assert (Hrej : rejects_with string_ (get_property no_inherited o "b") error [o]).
  { apply pure_rejects_with. intros h'. reflexivity. }
  do 5 (split; [done|]).
  exact (objectFunction_rejected_key no_inherited properties
           [("a" : key, Required number)] "b"
           (optional string_) [] 0 o [o] error
           eq_refl eq_refl Hpre eq_refl Hrej).
Defined.

(** [object({a: number, c: number})] on [{a: 1}]. *)
Lemma objectFunction_missing_key_witness :
  let properties : list (key * property) :=
    [("a" : key, Required number); ("c" : key, Required number)] in
  let o := OPlain [("a" : key, VNumber 1)] in
  [o] !! 0 = Some o /\
  processing_order properties
    = [("a" : key, Required number)] ++ ("c" : key, Required number) :: [] /\
  Forall (entry_accepted no_inherited o [o]) [("a" : key, Required number)] /\
  is_optional (Required number) = false /\
  has_property no_inherited o "c" = false /\
  completed (validate (objectFunction no_inherited properties) (VObject 0) [o])
  = Normal (Failure {| message := "missing required property";
                       path := [Key "c"] |}).
Proof.
  intros properties o.
  assert (Hpre : Forall (entry_accepted no_inherited o [o])
                        [("a" : key, Required number)]).
  { apply List.Forall_cons; [|apply List.Forall_nil]. split.
    - intros _. reflexivity.
    - intros _. apply (pure_accepts _ _ _ (VNumber 1)). intros h'. reflexivity. }
  do 5 (split; [done|]).
  exact (objectFunction_missing_key no_inherited properties
           [("a" : key, Required number)] "c"
           (Required number) [] 0 o [o] eq_refl eq_refl Hpre eq_refl eq_refl).
Defined.

(** [object({a: predicate(boom)})] on [{a: 1}]. *)
Lemma objectFunction_throw_escapes_witness :
  let properties : list (key * property) :=
    [("a" : key, Required (predicate boom))] in
  let o := OPlain [("a" : key, VNumber 1)] in
  [o] !! 0 = Some o /\
  processing_order properties
    = [] ++ ("a" : key, Required (predicate boom)) :: [] /\
  Forall (entry_accepted no_inherited o [o]) [] /\
  has_property no_inherited o "a" = true /\
  throws_with (predicate boom) (get_property no_inherited o "a") boom_error [o] /\
  completed (validate (objectFunction no_inherited properties) (VObject 0) [o])
  = Throw boom_error.
Proof.
  intros properties o.
  assert (Hthrow : throws_with (predicate boom)
                     (get_property no_inherited o "a") boom_error [o]).
  { apply (pure_throws_with _ _ _ _ [CallPredicate boom (VNumber 1)]).
    intros h'. reflexivity. }
  do 2 (split; [done|]). split; [apply List.Forall_nil|].
  do 2 (split; [done|]).
  exact (objectFunction_throw_escapes no_inherited properties [] "a"
           (Required (predicate boom)) [] 0 o [o] boom_error
           eq_refl eq_refl (List.Forall_nil _) eq_refl Hthrow).
Defined.

(** [Array_(number)] on [[1, "x", true]]. *)
Lemma Array_rejected_element_witness :
  let elems := [VNumber 1; VString "x"; VBoolean true] in
  let error := {| message := "not a number"; path := [] |} in
  [OArray elems] !! 0 = Some (OArray elems) /\
  elems !! 1 = Some (VString "x") /\
  (forall j y, j < 1 -> elems !! j = Some y -> accepts number y [OArray elems]) /\
  rejects_with number (VString "x") error [OArray elems] /\
  completed (validate (Array_ number) (VObject 0) [OArray elems])
  = Normal (Failure {| message := "not a number"; path := [Index 1] |}).
Proof.
  intros elems error.
  assert (Hbefore : forall j y, j < 1 -> elems !! j = Some y ->
                                accepts number y [OArray elems]).
  { intros j y Hj Hy. assert (j = 0) as -> by lia. injection Hy as <-.
    apply (pure_accepts _ _ _ (VNumber 1)). intros h'. reflexivity. }
  assert (Hrej : rejects_with number (VString "x") error [OArray elems]).
  { apply pure_rejects_with. intros h'. reflexivity. }
  do 4 (split; [done|]).
  exact (Array_rejected_element number 0 elems 1 (VString "x") [OArray elems]
           error eq_refl eq_refl Hbefore Hrej).
Defined.

(** [Array_(predicate(boom))] on [[1]]. *)
Lemma Array_throw_escapes_witness :
  let elems := [VNumber 1] in
  [OArray elems] !! 0 = Some (OArray elems) /\
  elems !! 0 = Some (VNumber 1) /\
  (forall j y, j < 0 -> elems !! j = Some y ->
               accepts (predicate boom) y [OArray elems]) /\
  throws_with (predicate boom) (VNumber 1) boom_error [OArray elems] /\
  completed (validate (Array_ (predicate boom)) (VObject 0) [OArray elems])
  = Throw boom_error.
Proof.
  intros elems.
  assert (Hbefore : forall j y, j < 0 -> elems !! j = Some y ->
                                accepts (predicate boom) y [OArray elems])
    by (intros j y Hj; lia).
  assert (Hthrow : throws_with (predicate boom) (VNumber 1) boom_error
                     [OArray elems]).
  { apply (pure_throws_with _ _ _ _ [CallPredicate boom (VNumber 1)]).
    intros h'. reflexivity. }
  do 4 (split; [done|]).
  exact (Array_throw_escapes (predicate boom) 0 elems 0 (VNumber 1)
           [OArray elems] boom_error eq_refl eq_refl Hbefore Hthrow).
Defined.





(** [Array_(Array_(convert(negate)))] on [[[1]]]: the inner array is
    copied, then the outer one. *)
Lemma Array_copies_on_change_witness :
  let elems := [VObject 0] in
  let h := [OArray [VNumber 1]; OArray elems] in
  let al := [OArray [VNumber (-1)]; OArray [VObject 2]] in
  let cl := [CallConverter negate (VNumber 1)] in
  h !! 1 = Some (OArray elems) /\
  validate (Array_ (Array_ (convert negate))) (VObject 1) h
  = Outcome (Normal (Success (VObject 3))) al cl /\
  exists ref rs,
    VObject 3 = VObject ref /\
    Forall2 (returned_between (Array_ (convert negate)) h (h ++ al)) elems rs /\
    (h ++ al) !! ref = Some (OArray (zip_with keep_or_replace elems rs)) /\
    length (zip_with keep_or_replace elems rs) = length elems /\
    (ref = 1 \/ length h <= ref) /\
    (ref = 1 <-> all_same elems rs).
Proof.
  intros elems h al cl.
  assert (Hrun : validate (Array_ (Array_ (convert negate))) (VObject 1) h
                 = Outcome (Normal (Success (VObject 3))) al cl)
    by (vm_compute; reflexivity).
  do 2 (split; [done|]).
  exact (Array_copies_on_change (Array_ (convert negate)) 1 elems h
           (VObject 3) al cl eq_refl Hrun).
Defined.

(** [object({a: Array_(convert(negate)), b: optional(number)})] on
    [{a: [1], b: 2, c: 3}]: the array under [a] is copied, whatever the
    heap. *)
Lemma objectFunction_change_keeps_others_witness :
  let post : list (key * property) := [("b" : key, optional number)] in
  let p := Required (Array_ (convert negate)) in
  let o := OPlain [("a" : key, VObject 0); ("b" : key, VNumber 2);
                   ("c" : key, VNumber 3)] in
  let h := [OArray [VNumber 1]; o] in
  h !! 1 = Some o /\
  Forall (entry_unchanged no_inherited o h) ([] ++ post) /\
  has_property no_inherited o "a" = true /\
  accepts_changed (property_schema p) (get_property no_inherited o "a") h /\
  exists al cl ref o' r,
    validate (objectFunction no_inherited ([] ++ ("a" : key, p) :: post))
             (VObject 1) h
    = Outcome (Normal (Success (VObject ref))) al cl /\
    ref <> 1 /\
    (h ++ al) !! 1 = Some o /\
    (h ++ al) !! ref = Some o' /\
    returned_between (property_schema p) h (h ++ al)
                     (get_property no_inherited o "a") r /\
    strict_equal r (get_property no_inherited o "a") = false /\
    own_property o' "a" = Some r /\
    forall k, k <> ("a" : key) -> own_property o' k = own_property o k.
Proof.
  intros post p o h.
  assert (Hall : Forall (entry_unchanged no_inherited o h) ([] ++ post)).
  { apply List.Forall_cons; [|apply List.Forall_nil]. split.
    - intros H. vm_compute in H. discriminate.
    - intros _. apply (leaf_accepts_unchanged _ _ _ (VNumber 2));
        [intros h'|]; reflexivity. }
  assert (Hacc : accepts_changed (property_schema p)
                   (get_property no_inherited o "a") h).
  { intros h' Hh.
    assert (Hl : h' !! 0 = Some (OArray [VNumber 1]))
      by (destruct Hh as [k ->]; reflexivity).
    assert (Hrs : Forall2 (fun x r => accepts_as (convert negate) x r h')
                    [VNumber 1] [VNumber (-1)]).
    { apply List.Forall2_cons; [|apply List.Forall2_nil].
      apply (pure_accepts_as _ _ _ _ [CallConverter negate (VNumber 1)]).
      intros h''. reflexivity. }
    destruct (Array_result (convert negate) _ _ h' 0 Hl Hrs)
      as (al & cl & ref & Hrun & _ & _ & Hsame).
    exists (VObject ref), al, cl. split; [exact Hrun|].
    apply Nat.eqb_neq. intros Href. apply Hsame in Href.
    apply Forall2_cons_1 in Href as [Href _].
    vm_compute in Href. discriminate. }
  do 4 (split; [done|]).
  exact (objectFunction_change_keeps_others no_inherited [] "a" p post 1 o h
           eq_refl Hall eq_refl Hacc).
Defined.

(** [null] against [object({a: number})]. *)
Lemma objectFunction_rejects_like_object_witness :
  let properties : list (key * property) := [("a" : key, Required number)] in
  completed (validate object VNull [])
    = Normal (Failure {| message := "not an object"; path := [] |}) /\
  validate (objectFunction no_inherited properties) VNull []
    = validate object VNull [].
Proof.
  intros properties. split; [done|].
  exact (objectFunction_rejects_like_object no_inherited properties VNull []
           {| message := "not an object"; path := [] |} eq_refl).
Defined.

(** An array is accepted by the bare [object] and by no other of these
    schemas. *)
Lemma typed_leaves_exclusive_witness :
  In object typed_leaves /\ In object typed_leaves /\
  completed (validate object (VObject 0) [OArray []])
    = Normal (Success (VObject 0)) /\
  completed (validate object (VObject 0) [OArray []])
    = Normal (Success (VObject 0)) /\
  object = object.
Proof.
  assert (H : In object typed_leaves) by (do 5 right; by left).
  do 4 (split; [done|]).
  exact (typed_leaves_exclusive object object (VObject 0) [OArray []]
           (VObject 0) (VObject 0) H H eq_refl eq_refl).
Defined.

(** [or(number, predicate(is_one))]. *)
Lemma or_returns_input_witness :
  Forall returns_input [number; predicate is_one] /\
  returns_input (or [number; predicate is_one]).
Proof.
  assert (H : Forall returns_input [number; predicate is_one]).
  { apply List.Forall_cons; [|apply List.Forall_cons; [|apply List.Forall_nil]].
    - intros v h r Hrun. cbn in Hrun.
      destruct (is_typeof v TNumber); by inversion Hrun.
    - intros v h r Hrun. rewrite predicate_run in Hrun. cbn in Hrun.
      destruct (strict_equal v (VNumber 1)); by inversion Hrun. }
  split; [done|].
  exact (or_returns_input [number; predicate is_one] H).
Defined.

(** [Array_(convert(negate))]. *)
Lemma Array_never_throws_witness :
  never_throws (convert negate) /\ never_throws (Array_ (convert negate)).
Proof.
  split; [apply negate_never_throws|].
  exact (Array_never_throws (convert negate) negate_never_throws).
Defined.

(** [object({a: convert(negate), b: optional(number)})]. *)
Lemma objectFunction_never_throws_witness :
  let properties : list (key * property) :=
    [("a" : key, Required (convert negate)); ("b" : key, optional number)] in
  Forall (fun entry => never_throws (property_schema (snd entry))) properties /\
  never_throws (objectFunction no_inherited properties).
Proof.
  intros properties.
  assert (H : Forall (fun entry => never_throws (property_schema (snd entry)))
                properties).
  { apply List.Forall_cons; [apply negate_never_throws|].
    apply List.Forall_cons; [|apply List.Forall_nil].
    apply leaf_never_throws. right. by left. }
  split; [exact H|].
  exact (objectFunction_never_throws no_inherited properties H).
Defined.

(** [or(number, convert(negate))]. *)
Lemma or_never_throws_witness :
  Forall never_throws [number; convert negate] /\
  never_throws (or [number; convert negate]).
Proof.
  assert (H : Forall never_throws [number; convert negate]).
  { apply List.Forall_cons; [apply leaf_never_throws; right; by left|].
    apply List.Forall_cons; [apply negate_never_throws|apply List.Forall_nil]. }
  split; [exact H|].
  exact (or_never_throws [number; convert negate] H).
Defined.
